(** * Sparklehood: the AI-safety incident dashboard

    A shallow embedding of [src/components/Dashboard.tsx]: the incident
    record, the IndexedDB object store behind [loadIncidentsFromDB] and
    [saveIncidentsToDB], the event handlers of the [Dashboard] component
    together with the effect that persists the record set, and the
    filter / search / sort pipeline that derives the displayed list. *)

From Stdlib Require Import ZArith Ascii String.
From stdpp Require Import gmap strings list fin_maps sorting.

Local Open Scope Z_scope.

(** ** Data model *)

Inductive Severity := Low | Medium | High.

#[global] Instance Severity_eq_dec : EqDecision Severity.
Proof. solve_decision. Defined.

(** The filter state is [Severity | "All"]. *)
Inductive SeverityFilter := All | Only (s : Severity).

#[global] Instance SeverityFilter_eq_dec : EqDecision SeverityFilter.
Proof. solve_decision. Defined.

Inductive SortOrder := newest | oldest.

#[global] Instance SortOrder_eq_dec : EqDecision SortOrder.
Proof. solve_decision. Defined.

(** [interface Incident].  The numeric [id] is an integer in every record
    the program builds ([Date.now()] or a seed literal). *)
Record Incident := mkIncident {
  id : Z;
  title : string;
  description : string;
  severity : Severity;
  reported_at : string
}.

#[global] Instance Incident_eq_dec : EqDecision Incident.
Proof. solve_decision. Defined.

Definition initialIncidents : list Incident :=
  [ mkIncident 1 "Biased Recommendation Algorithm"
      "Algorithm consistently favored certain demographics..."
      Medium "2025-03-15T10:00:00Z";
    mkIncident 2 "LLM Hallucination in Critical Info"
      "LLM provided incorrect safety procedure information..."
      High "2025-04-01T14:30:00Z";
    mkIncident 3 "Minor Data Leak via Chatbot"
      "Chatbot inadvertently exposed non-sensitive user metadata..."
      Low "2025-03-20T09:15:00Z" ].

(** ** Runtime library: [Array.prototype.sort]

    The comparator returns a number; a negative result puts its first
    argument first, a positive one its second, and zero keeps the input
    order (the sort is stable).  The model inserts each element in front of
    the already sorted rest of the array, stepping over the elements that
    must precede it. *)

Section ArraySort.
Context {A : Type} (cmp : A → A → Z).

Fixpoint sort_insert (x : A) (l : list A) : list A :=
  match l with
  | [] => [x]
  | y :: l' => if decide (cmp x y ≤ 0) then x :: l else y :: sort_insert x l'
  end.

Fixpoint array_sort (l : list A) : list A :=
  match l with
  | [] => []
  | x :: l' => sort_insert x (array_sort l')
  end.
End ArraySort.

(** ** Runtime library: strings

    A string stands for the JavaScript string whose UTF-8 encoding it is.
    [includes] is the substring test; on well-formed text the test on the
    encoding agrees with the test on UTF-16 code units.  [toLowerCase]
    decodes the code points, lower-cases them and encodes the result.  Its
    tables are those of Unicode for Basic Latin, Latin-1 Supplement, the
    Greek letters U+0386 to U+03CE (with the final-sigma rule) and the
    Cyrillic letters U+0400 to U+045F.  A code point outside these is left
    as it is, so for text in other scripts the function below is not the
    runtime's; the general statements about the search are made for ASCII
    text, on which lower-casing only maps A-Z to a-z. *)

(** The code points of a string (UTF-8 decoding). *)
Fixpoint codePoints (s : string) : list N :=
  match s with
  | EmptyString => []
  | String c1 s1 =>
      let b1 := N_of_ascii c1 in
      if (b1 <? 192)%N then b1 :: codePoints s1
      else
        match s1 with
        | EmptyString => [b1]
        | String c2 s2 =>
            let b2 := N_of_ascii c2 in
            if (b1 <? 224)%N then
              ((b1 - 192) * 64 + (b2 - 128))%N :: codePoints s2
            else
              match s2 with
              | EmptyString => [b1; b2]
              | String c3 s3 =>
                  let b3 := N_of_ascii c3 in
                  if (b1 <? 240)%N then
                    ((b1 - 224) * 4096 + (b2 - 128) * 64 + (b3 - 128))%N
                      :: codePoints s3
                  else
                    match s3 with
                    | EmptyString => [b1; b2; b3]
                    | String c4 s4 =>
                        ((b1 - 240) * 262144 + (b2 - 128) * 4096
                         + (b3 - 128) * 64 + (N_of_ascii c4 - 128))%N
                          :: codePoints s4
                    end
              end
        end
  end.

(** The UTF-8 encoding of one code point. *)
Definition encodeCodePoint (c : N) : string :=
  if (c <? 128)%N then String (ascii_of_N c) EmptyString
  else if (c <? 2048)%N then
    String (ascii_of_N (192 + c / 64))
      (String (ascii_of_N (128 + c mod 64)) EmptyString)
  else if (c <? 65536)%N then
    String (ascii_of_N (224 + c / 4096))
      (String (ascii_of_N (128 + (c / 64) mod 64))
         (String (ascii_of_N (128 + c mod 64)) EmptyString))
  else
    String (ascii_of_N (240 + c / 262144))
      (String (ascii_of_N (128 + (c / 4096) mod 64))
         (String (ascii_of_N (128 + (c / 64) mod 64))
            (String (ascii_of_N (128 + c mod 64)) EmptyString))).

Fixpoint fromCodePoints (l : list N) : string :=
  match l with
  | [] => EmptyString
  | c :: l' => encodeCodePoint c +:+ fromCodePoints l'
  end.

(** The lower-case form of a code point, out of context. *)
Definition lowerCodePoint (c : N) : N :=
  if ((65 <=? c) && (c <=? 90))%N then (c + 32)%N
  else if ((192 <=? c) && (c <=? 222) && negb (c =? 215))%N then (c + 32)%N
  else if (c =? 902)%N then 940%N
  else if ((904 <=? c) && (c <=? 906))%N then (c + 37)%N
  else if (c =? 908)%N then 972%N
  else if ((910 <=? c) && (c <=? 911))%N then (c + 63)%N
  else if ((913 <=? c) && (c <=? 939) && negb (c =? 930))%N then (c + 32)%N
  else if ((1024 <=? c) && (c <=? 1039))%N then (c + 80)%N
  else if ((1040 <=? c) && (c <=? 1071))%N then (c + 32)%N
  else c.

(** The cased letters and the case-ignorable characters among the code
    points covered; they decide the form of a capital sigma. *)
Definition cased (c : N) : bool :=
  (((65 <=? c) && (c <=? 90)) || ((97 <=? c) && (c <=? 122))
   || (c =? 170) || (c =? 181) || (c =? 186)
   || ((192 <=? c) && (c <=? 214)) || ((216 <=? c) && (c <=? 246))
   || ((248 <=? c) && (c <=? 255))
   || (c =? 902) || ((904 <=? c) && (c <=? 906)) || (c =? 908)
   || ((910 <=? c) && (c <=? 929)) || ((931 <=? c) && (c <=? 974))
   || ((1024 <=? c) && (c <=? 1119)))%N.

Definition caseIgnorable (c : N) : bool :=
  ((c =? 39) || (c =? 46) || (c =? 58) || (c =? 94) || (c =? 96)
   || (c =? 168) || (c =? 173) || (c =? 175) || (c =? 180) || (c =? 183)
   || (c =? 184))%N.

(** A cased letter follows, after any case-ignorable characters. *)
Fixpoint casedFollows (l : list N) : bool :=
  match l with
  | [] => false
  | c :: l' => if caseIgnorable c then casedFollows l' else cased c
  end.

(** Lower-casing in context: a capital sigma (931) that ends a word, i.e.
    preceded by a cased letter and not followed by one, becomes the final
    sigma (962), any other becomes 963.  [casedBefore] tells whether a
    cased letter precedes, case-ignorable characters apart. *)
Fixpoint lowerCodePoints (casedBefore : bool) (l : list N) : list N :=
  match l with
  | [] => []
  | c :: l' =>
      (if (c =? 931)%N then
         if casedBefore && negb (casedFollows l') then 962%N else 963%N
       else lowerCodePoint c)
        :: lowerCodePoints (if caseIgnorable c then casedBefore else cased c) l'
  end.

Definition toLowerCase (s : string) : string :=
  fromCodePoints (lowerCodePoints false (codePoints s)).

Fixpoint startsWith (s t : string) : bool :=
  match t, s with
  | EmptyString, _ => true
  | String _ _, EmptyString => false
  | String b t', String a s' => if decide (a = b) then startsWith s' t' else false
  end.

Fixpoint includes (s t : string) : bool :=
  if startsWith s t then true
  else match s with
       | EmptyString => false
       | String _ s' => includes s' t
       end.

(** ** The IndexedDB object store

    The database holds one object store, created with [keyPath: "id"]: a
    finite map from ids to records.  [indexedDB.open] either succeeds or
    reports an error ([idbAvailable]). *)

Record IDB := mkIDB {
  idbAvailable : bool;
  objectStore : gmap Z Incident
}.

Definition openDB (db : IDB) : option (gmap Z Incident) :=
  if idbAvailable db then Some (objectStore db) else None.

(** [store.add(incident)]: the request fails when the key is taken. *)
Definition store_add (i : Incident) (s : gmap Z Incident) : option (gmap Z Incident) :=
  match s !! id i with
  | Some _ => None
  | None => Some (<[id i := i]> s)
  end.

(** The [for] loop of [saveIncidentsToDB]. *)
Fixpoint store_add_all (l : list Incident) (s : gmap Z Incident)
  : option (gmap Z Incident) :=
  match l with
  | [] => Some s
  | i :: l' =>
      match store_add i s with
      | Some s' => store_add_all l' s'
      | None => None
      end
  end.

(** [store.getAll()]: every record, in ascending key order. *)
Definition getAll (s : gmap Z Incident) : list Incident :=
  (array_sort (λ p q : Z * Incident, p.1 - q.1) (map_to_list s)).*2.

(** [saveIncidentsToDB]: one read-write transaction that clears the store
    and adds every record.  A failed [add] request is not handled, so it
    aborts the transaction and the store keeps its previous content; when
    the database cannot be opened the error is logged and nothing is
    written. *)
Definition saveIncidentsToDB (incidents : list Incident) (db : IDB) : IDB :=
  match openDB db with
  | None => db
  | Some _ =>
      match store_add_all incidents ∅ with
      | Some s => mkIDB (idbAvailable db) s
      | None => db
      end
  end.

(** [loadIncidentsFromDB]: the records of the store, or the seed set (which
    is then also written to the store) when there are none; the seed set
    too when the database cannot be opened. *)
Definition loadIncidentsFromDB (db : IDB) : list Incident * IDB :=
  match openDB db with
  | None => (initialIncidents, db)
  | Some s =>
      let result := getAll s in
      if decide (0 < length result)%nat then (result, db)
      else (initialIncidents, saveIncidentsToDB initialIncidents db)
  end.

(** ** The view-derivation pipeline

    The effect with dependencies [incidents, filter, sortOrder, searchTerm]
    computes [filteredIncidents] by two [filter] passes and a [sort]. *)

Definition matchesFilter (f : SeverityFilter) (i : Incident) : Prop :=
  f = All ∨ Only (severity i) = f.

#[global] Instance matchesFilter_dec f i : Decision (matchesFilter f i).
Proof. unfold matchesFilter. apply _. Defined.

Definition filterStage (f : SeverityFilter) (l : list Incident) : list Incident :=
  filter (matchesFilter f) l.

Definition matchesSearch (searchTerm : string) (i : Incident) : bool :=
  includes (toLowerCase (title i)) (toLowerCase searchTerm)
  || includes (toLowerCase (description i)) (toLowerCase searchTerm).

Definition searchStage (searchTerm : string) (l : list Incident) : list Incident :=
  filter (λ i, matchesSearch searchTerm i = true) l.

Section SortStage.
(** [new Date(s).getTime()]: the milliseconds of a date string, [None]
    when the string is not a date (the result is then [NaN]). *)
Variable getTime : string → option Z.

(** The comparator handed to [sort].  A [NaN] difference counts as zero.
    The timestamps are integers below 2^53 in absolute value, so the sign
    of the floating-point difference is the sign of the integer one. *)
Definition compareReportedAt (o : SortOrder) (a b : Incident) : Z :=
  match getTime (reported_at a), getTime (reported_at b) with
  | Some ta, Some tb =>
      match o with
      | newest => tb - ta
      | oldest => ta - tb
      end
  | _, _ => 0
  end.

Definition sortStage (o : SortOrder) (l : list Incident) : list Incident :=
  array_sort (compareReportedAt o) l.

Definition deriveView (l : list Incident) (f : SeverityFilter)
    (o : SortOrder) (searchTerm : string) : list Incident :=
  sortStage o (searchStage searchTerm (filterStage f l)).
End SortStage.

(** ** The [Dashboard] component *)

Record NewIncident := mkNewIncident {
  newTitle : string;
  newDescription : string;
  newSeverity : Severity
}.

Record DeletePopup := mkDeletePopup {
  isOpen : bool;
  incidentId : Z;
  popupTitle : string
}.

(** The [useState] cells the handlers read and write. *)
Record Dashboard := mkDashboard {
  incidents : list Incident;
  sevFilter : SeverityFilter;
  sortOrder : SortOrder;
  searchTerm : string;
  newIncident : NewIncident;
  deletePopup : DeletePopup
}.

Inductive Toast :=
  | toast_error (msg : string)
  | toast_success (msg : string)
  | toast_info (msg : string).

Definition emptyForm : NewIncident := mkNewIncident EmptyString EmptyString Low.
Definition closedPopup : DeletePopup := mkDeletePopup false 0 EmptyString.

Definition initialDashboard : Dashboard :=
  mkDashboard [] All newest EmptyString emptyForm closedPopup.

Definition quoted (s : string) : string :=
  String (ascii_of_N 34) (s +:+ String (ascii_of_N 34) EmptyString).

(** What one run of a handler leaves behind: the next state, whether
    [setIncidents] was called (the array is then a new one, also when its
    content is the same) and the notifications shown. *)
Record Outcome := mkOutcome {
  nextState : Dashboard;
  incidentsSet : bool;
  shown : list Toast
}.

Definition setIncidents (f : list Incident → list Incident) (d : Dashboard) : Dashboard :=
  mkDashboard (f (incidents d)) (sevFilter d) (sortOrder d) (searchTerm d)
    (newIncident d) (deletePopup d).

Definition setNewIncident (n : NewIncident) (d : Dashboard) : Dashboard :=
  mkDashboard (incidents d) (sevFilter d) (sortOrder d) (searchTerm d)
    n (deletePopup d).

Definition setDeletePopup (f : DeletePopup → DeletePopup) (d : Dashboard) : Dashboard :=
  mkDashboard (incidents d) (sevFilter d) (sortOrder d) (searchTerm d)
    (newIncident d) (f (deletePopup d)).

Definition setFilter (f : SeverityFilter) (d : Dashboard) : Dashboard :=
  mkDashboard (incidents d) f (sortOrder d) (searchTerm d)
    (newIncident d) (deletePopup d).

Definition setSortOrder (o : SortOrder) (d : Dashboard) : Dashboard :=
  mkDashboard (incidents d) (sevFilter d) o (searchTerm d)
    (newIncident d) (deletePopup d).

Definition setSearchTerm (s : string) (d : Dashboard) : Dashboard :=
  mkDashboard (incidents d) (sevFilter d) (sortOrder d) s
    (newIncident d) (deletePopup d).

(** [handleSubmit]; [now] is the value of [Date.now()] and [nowISO] that of
    [new Date().toISOString()].  A string is falsy exactly when empty. *)
Definition handleSubmit (now : Z) (nowISO : string) (d : Dashboard) : Outcome :=
  let n := newIncident d in
  if decide (newTitle n = EmptyString ∨ newDescription n = EmptyString) then
    mkOutcome d false [toast_error "Please fill all fields"]
  else
    let newEntry :=
      mkIncident now (newTitle n) (newDescription n) (newSeverity n) nowISO in
    mkOutcome
      (setNewIncident emptyForm (setIncidents (λ prev, newEntry :: prev) d))
      true
      [toast_success ("New incident " +:+ quoted (newTitle n)
                        +:+ " added successfully!")].

Definition showDeleteConfirm (x : Z) (t : string) (d : Dashboard) : Outcome :=
  mkOutcome (setDeletePopup (λ _, mkDeletePopup true x t) d) false [].

Definition confirmDelete (d : Dashboard) : Outcome :=
  let p := deletePopup d in
  mkOutcome
    (setDeletePopup (λ _, closedPopup)
       (setIncidents (λ prev, filter (λ i, id i ≠ incidentId p) prev) d))
    true
    [toast_info ("Incident " +:+ quoted (popupTitle p) +:+ " has been deleted")].

(** The popup's Cancel button, and a mouse press outside the popup. *)
Definition cancelDelete (d : Dashboard) : Outcome :=
  mkOutcome
    (setDeletePopup (λ prev, mkDeletePopup false (incidentId prev) (popupTitle prev)) d)
    false [].

Inductive Event :=
  | Submit (now : Z) (nowISO : string)
  | ShowDeleteConfirm (x : Z) (t : string)
  | ConfirmDelete
  | CancelDelete
  | ClickOutside
  | ChangeTitle (s : string)
  | ChangeDescription (s : string)
  | ChangeSeverity (s : Severity)
  | SetFilter (f : SeverityFilter)
  | SetSortOrder (o : SortOrder)
  | SetSearchTerm (s : string).

#[global] Instance Event_eq_dec : EqDecision Event.
Proof. solve_decision. Defined.

(** The handler an event runs.  The popup's buttons exist only while the
    popup is open. *)
Definition handle (e : Event) (d : Dashboard) : Outcome :=
  match e with
  | Submit now nowISO => handleSubmit now nowISO d
  | ShowDeleteConfirm x t => showDeleteConfirm x t d
  | ConfirmDelete =>
      if isOpen (deletePopup d) then confirmDelete d else mkOutcome d false []
  | CancelDelete =>
      if isOpen (deletePopup d) then cancelDelete d else mkOutcome d false []
  | ClickOutside => cancelDelete d
  | ChangeTitle s =>
      let n := newIncident d in
      mkOutcome (setNewIncident (mkNewIncident s (newDescription n) (newSeverity n)) d)
        false []
  | ChangeDescription s =>
      let n := newIncident d in
      mkOutcome (setNewIncident (mkNewIncident (newTitle n) s (newSeverity n)) d)
        false []
  | ChangeSeverity s =>
      let n := newIncident d in
      mkOutcome (setNewIncident (mkNewIncident (newTitle n) (newDescription n) s) d)
        false []
  | SetFilter f => mkOutcome (setFilter f d) false []
  | SetSortOrder o => mkOutcome (setSortOrder o d) false []
  | SetSearchTerm s => mkOutcome (setSearchTerm s d) false []
  end.

(** The running application: the component, the database, the notifications
    shown so far and the [saveIncidentsToDB] calls the persisting effect has
    issued so far. *)
Record World := mkWorld {
  ui : Dashboard;
  idb : IDB;
  toasts : list Toast;
  saveCalls : list (list Incident)
}.

(** The effect with dependency [incidents]. *)
Definition persistEffect (w : World) : World :=
  let l := incidents (ui w) in
  if decide (0 < length l)%nat then
    mkWorld (ui w) (saveIncidentsToDB l (idb w)) (toasts w) (saveCalls w ++ [l])
  else w.

Definition dispatch (w : World) (e : Event) : World :=
  let o := handle e (ui w) in
  let w' := mkWorld (nextState o) (idb w) (toasts w ++ shown o) (saveCalls w) in
  if incidentsSet o then persistEffect w' else w'.

Definition run (w : World) (es : list Event) : World := foldl dispatch w es.

(** The first render: the persisting effect sees the empty initial array,
    the loading effect reads the database and stores the result with
    [setIncidents], which runs the persisting effect again. *)
Definition mount (db : IDB) : World :=
  let w0 := persistEffect (mkWorld initialDashboard db [] []) in
  let '(data, db') := loadIncidentsFromDB (idb w0) in
  persistEffect
    (mkWorld (setIncidents (λ _, data) (ui w0)) db' (toasts w0) (saveCalls w0)).

(** [filteredIncidents], the list on display, as the deriving effect leaves
    it once the state has settled. *)
Definition filteredIncidents (getTime : string → option Z) (d : Dashboard)
  : list Incident :=
  deriveView getTime (incidents d) (sevFilter d) (sortOrder d) (searchTerm d).

(** ** Reading the timestamps the program writes

    [new Date(s).getTime()] for the instants written as
    [YYYY-MM-DDTHH:mm:ssZ] (the seed records) or [YYYY-MM-DDTHH:mm:ss.sssZ]
    (the output of [toISOString]); any other string is treated as not a
    date.  The concrete scenarios below read their timestamps with it. *)

Definition digitVal (c : ascii) : option Z :=
  let n := Z.of_N (N_of_ascii c) in
  if decide (48 ≤ n ≤ 57) then Some (n - 48) else None.

Fixpoint readDigits (n : nat) (acc : Z) (s : string) : option (Z * string) :=
  match n with
  | O => Some (acc, s)
  | S n' =>
      match s with
      | String c s' => d ← digitVal c; readDigits n' (10 * acc + d) s'
      | EmptyString => None
      end
  end.

Definition expectChar (c : ascii) (s : string) : option string :=
  match s with
  | String c' s' => if decide (c = c') then Some s' else None
  | EmptyString => None
  end.

Definition isLeapYear (y : Z) : bool :=
  bool_decide (y mod 4 = 0 ∧ (y mod 100 ≠ 0 ∨ y mod 400 = 0)).

Definition daysInMonth (y m : Z) : Z :=
  if decide (m = 2) then (if isLeapYear y then 29 else 28)
  else if decide (m = 4 ∨ m = 6 ∨ m = 9 ∨ m = 11) then 30 else 31.

(** Days between 1970-01-01 and the given civil date. *)
Definition daysFromCivil (y m d : Z) : Z :=
  let y' := if decide (m ≤ 2) then y - 1 else y in
  let era := y' / 400 in
  let yoe := y' - era * 400 in
  let doy := (153 * (if decide (2 < m) then m - 3 else m + 9) + 2) / 5 + d - 1 in
  let doe := yoe * 365 + yoe / 4 - yoe / 100 + doy in
  era * 146097 + doe - 719468.

Definition readMillis (s : string) : option (Z * string) :=
  match s with
  | String "." s' => readDigits 3 0 s'
  | _ => Some (0, s)
  end.

Definition isoTime (s : string) : option Z :=
  '(y, s) ← readDigits 4 0 s; s ← expectChar "-" s;
  '(m, s) ← readDigits 2 0 s; s ← expectChar "-" s;
  '(d, s) ← readDigits 2 0 s; s ← expectChar "T" s;
  '(hh, s) ← readDigits 2 0 s; s ← expectChar ":" s;
  '(mm, s) ← readDigits 2 0 s; s ← expectChar ":" s;
  '(ss, s) ← readDigits 2 0 s;
  '(ms, s) ← readMillis s;
  s ← expectChar "Z" s;
  if decide (s = EmptyString ∧ 1 ≤ m ≤ 12 ∧ 1 ≤ d ≤ daysInMonth y m
             ∧ hh < 24 ∧ mm < 60 ∧ ss < 60)
  then Some ((((daysFromCivil y m d * 24 + hh) * 60 + mm) * 60 + ss) * 1000 + ms)
  else None.

(** ** Vocabulary of the specification *)

(** ASCII text: every character is below 128. *)
Fixpoint isAscii (s : string) : bool :=
  match s with
  | EmptyString => true
  | String c s' => (N_of_ascii c <? 128)%N && isAscii s'
  end.

(** The title and the description of the record are ASCII text. *)
Definition asciiText (i : Incident) : Prop :=
  isAscii (title i) = true ∧ isAscii (description i) = true.

(** Two characters are the same letter up to case: they are equal, or one
    is a capital A-Z and the other the small letter 32 places after it. *)
Definition sameLetter (a b : ascii) : Prop :=
  a = b
  ∨ ((65 ≤ N_of_ascii a ≤ 90)%N ∧ N_of_ascii b = (N_of_ascii a + 32)%N)
  ∨ ((65 ≤ N_of_ascii b ≤ 90)%N ∧ N_of_ascii a = (N_of_ascii b + 32)%N).

(** Two strings are equal up to the case of their letters. *)
Fixpoint equalIgnoringCase (s t : string) : Prop :=
  match s, t with
  | EmptyString, EmptyString => True
  | String a s', String b t' => sameLetter a b ∧ equalIgnoringCase s' t'
  | _, _ => False
  end.

(** [text] contains [term] as a substring, up to the case of letters. *)
Definition containsIgnoringCase (text term : string) : Prop :=
  ∃ pre mid post : string,
    text = pre +:+ mid +:+ post ∧ equalIgnoringCase mid term.

(** What lower-casing does to ASCII text, character by character. *)
Definition lowerAsciiChar (c : ascii) : ascii :=
  if ((65 <=? N_of_ascii c) && (N_of_ascii c <=? 90))%N
  then ascii_of_N (N_of_ascii c + 32) else c.

Fixpoint lowerAscii (s : string) : string :=
  match s with
  | EmptyString => EmptyString
  | String c s' => String (lowerAsciiChar c) (lowerAscii s')
  end.

(** A record whose title is the two Greek capitals omicron and sigma. *)
Definition sigmaIncident : Incident :=
  mkIncident 4 "ΟΣ" "Outage of the translation service" Low
    "2025-05-01T08:00:00Z".

(** The events that change the record set: a submission that passes the
    validation, and a press on the popup's Delete button. *)
Definition mutates (e : Event) (d : Dashboard) : Prop :=
  match e with
  | Submit _ _ =>
      newTitle (newIncident d) ≠ EmptyString
      ∧ newDescription (newIncident d) ≠ EmptyString
  | ConfirmDelete => isOpen (deletePopup d) = true
  | _ => False
  end.

#[global] Instance mutates_dec e d : Decision (mutates e d).
Proof. destruct e; simpl; apply _. Defined.

(** The order the sort stage is asked for, on the timestamps. *)
Definition inOrder (getTime : string → option Z) (o : SortOrder) (a b : Incident) : Prop :=
  match getTime (reported_at a), getTime (reported_at b) with
  | Some ta, Some tb =>
      match o with
      | newest => tb ≤ ta
      | oldest => ta ≤ tb
      end
  | _, _ => False
  end.

Definition reportedAtTime (getTime : string → option Z) (t : Z) (i : Incident) : Prop :=
  getTime (reported_at i) = Some t.

#[global] Instance reportedAtTime_dec getTime t i : Decision (reportedAtTime getTime t i).
Proof. unfold reportedAtTime. apply _. Defined.

(** The record's [reported_at] is a date. *)
Definition hasTime (getTime : string → option Z) (i : Incident) : Prop :=
  is_Some (getTime (reported_at i)).

(** The key the comparator of the sort stage orders by. *)
Definition sortKey (getTime : string → option Z) (o : SortOrder) (i : Incident) : Z :=
  match o with
  | newest => - default 0 (getTime (reported_at i))
  | oldest => default 0 (getTime (reported_at i))
  end.

(** A fresh browser profile after the first render, and the state reached
    from it by deleting the first two seed records and asking to delete the
    third. *)
Definition freshWorld : World := mount (mkIDB true ∅).

Definition lastIncidentWorld : World :=
  run freshWorld
    [ ShowDeleteConfirm 1 "Biased Recommendation Algorithm"; ConfirmDelete;
      ShowDeleteConfirm 2 "LLM Hallucination in Critical Info"; ConfirmDelete;
      ShowDeleteConfirm 3 "Minor Data Leak via Chatbot" ].

(** The scenario of the specification: on the seed set, report a High
    incident titled Test and filter by High. *)
Definition scenarioWorld : World :=
  run freshWorld
    [ ChangeTitle "Test"; ChangeDescription "An incident for the scenario";
      ChangeSeverity High;
      Submit 1762086400000 "2025-11-02T12:26:40.000Z";
      SetFilter (Only High) ].

(** Two reports submitted while [Date.now()] reads the same millisecond. *)
Definition sameInstantWorld : World :=
  run freshWorld
    [ ChangeTitle "A"; ChangeDescription "a";
      Submit 1700000000000 "2023-11-14T22:13:20.000Z";
      ChangeTitle "B"; ChangeDescription "b";
      Submit 1700000000000 "2023-11-14T22:13:20.000Z" ].

(** ** The other state cells of the component *)

(** [toggleDetails], on the [expandedIds] cell: the ids of the records
    whose description is unfolded. *)
Definition toggleDetails (x : Z) (prev : list Z) : list Z :=
  if decide (x ∈ prev) then filter (λ i, i ≠ x) prev else prev ++ [x].

(** The statistics of the floating counter. *)
Definition lowCount (l : list Incident) : nat :=
  length (filter (λ i, severity i = Low) l).

Definition mediumCount (l : list Incident) : nat :=
  length (filter (λ i, severity i = Medium) l).

Definition highCount (l : list Incident) : nat :=
  length (filter (λ i, severity i = High) l).

Definition totalCount (l : list Incident) : nat := length l.

(** What the theme code sees of the browser: whether there is a [window]
    at all, the [localStorage] entries, the answer of
    [matchMedia('(prefers-color-scheme: dark)')] and the class list of the
    document element. *)
Record Browser := mkBrowser {
  hasWindow : bool;
  localStorage : gmap string string;
  prefersDark : bool;
  classList : gset string
}.

(** Truthiness of the result of [getItem]: [null] and the empty string are
    falsy. *)
Definition truthy (v : option string) : bool :=
  match v with
  | Some s => bool_decide (s ≠ EmptyString)
  | None => false
  end.

(** The initialiser of the [darkMode] cell. *)
Definition initialDarkMode (b : Browser) : bool :=
  if hasWindow b then
    let savedTheme := localStorage b !! "theme" in
    bool_decide (savedTheme = Some "dark")
    || (negb (truthy savedTheme) && prefersDark b)
  else false.

(** The effect with dependency [darkMode]. *)
Definition themeEffect (darkMode : bool) (b : Browser) : Browser :=
  if darkMode then
    mkBrowser (hasWindow b) (<["theme" := "dark"]> (localStorage b))
      (prefersDark b) (classList b ∪ {["dark"]})
  else
    mkBrowser (hasWindow b) (<["theme" := "light"]> (localStorage b))
      (prefersDark b) (classList b ∖ {["dark"]}).

(** The floating counter: its two cells and the callbacks handed to
    [setTimeout] that have not run yet, oldest first.  A callback stores
    the negation of the [isCountExpanded] its handler saw. *)
Record Counter := mkCounter {
  isCountExpanded : bool;
  isCountRotating : bool;
  pendingTimers : list bool
}.

Definition toggleCountDisplay (c : Counter) : Counter :=
  mkCounter (isCountExpanded c) true
    (pendingTimers c ++ [negb (isCountExpanded c)]).

(** The oldest pending callback runs. *)
Definition fireTimer (c : Counter) : Counter :=
  match pendingTimers c with
  | [] => c
  | v :: rest => mkCounter v false rest
  end.

(** Every record of the store is filed under its own id, as the key path
    of the object store makes it. *)
Definition keyed (s : gmap Z Incident) : Prop :=
  ∀ k i, s !! k = Some i → id i = k.

(** The fields the creation form requires are filled. *)
Definition filled (i : Incident) : Prop :=
  title i ≠ EmptyString ∧ description i ≠ EmptyString.

(** The readings of [Date.now()] that the submissions of a run pass to
    [handleSubmit], in order. *)
Fixpoint submitClocks (es : list Event) : list Z :=
  match es with
  | [] => []
  | Submit now _ :: es' => now :: submitClocks es'
  | _ :: es' => submitClocks es'
  end.

(** * Properties *)

(** ** [Array.prototype.sort] *)

Section ArraySortFacts.
Context {A : Type} (cmp : A → A → Z) (key : A → Z) (ok : A → Prop).

(** On the elements at hand the comparator orders by [key]. *)
Hypothesis cmp_key : ∀ a b, ok a → ok b → (cmp a b ≤ 0 ↔ key a ≤ key b).

Lemma sort_insert_Permutation x l : sort_insert cmp x l ≡ₚ x :: l.
Proof.
  induction l as [|y l IH]; simpl; [done|].
  case_decide; [done|]. rewrite IH. apply Permutation_swap.
Qed.

Lemma array_sort_Permutation l : array_sort cmp l ≡ₚ l.
Proof.
  induction l as [|x l IH]; simpl; [done|].
  by rewrite sort_insert_Permutation, IH.
Qed.

Lemma array_sort_length l : length (array_sort cmp l) = length l.
Proof. by rewrite array_sort_Permutation. Qed.

Lemma array_sort_Forall (P : A → Prop) l : Forall P l → Forall P (array_sort cmp l).
Proof. by rewrite array_sort_Permutation. Qed.

Lemma sort_insert_sorted x l :
  ok x → Forall ok l →
  StronglySorted (λ a b, key a ≤ key b) l →
  StronglySorted (λ a b, key a ≤ key b) (sort_insert cmp x l).
Proof.
  intros Hx Hl Hs. induction Hs as [|y l Hs IH Hy]; simpl.
  - repeat constructor.
  - apply Forall_cons in Hl as [Hoy Hl].
    case_decide as Hc.
    + apply cmp_key in Hc; [|done..].
      constructor; [by constructor|].
      constructor; [done|].
      eapply Forall_impl; [exact Hy|]. simpl. lia.
    + assert (key y < key x) as Hlt.
      { destruct (decide (key x ≤ key y)) as [Hle|]; [|lia].
        apply cmp_key in Hle; done. }
      constructor; [by apply IH|].
      rewrite sort_insert_Permutation. constructor; [lia|done].
Qed.

Lemma array_sort_sorted l :
  Forall ok l → StronglySorted (λ a b, key a ≤ key b) (array_sort cmp l).
Proof.
  induction l as [|x l IH]; intros Hl; simpl; [constructor|].
  apply Forall_cons in Hl as [Hx Hl].
  apply sort_insert_sorted; [done|by apply array_sort_Forall|by apply IH].
Qed.

(** Stability: the elements of one key keep their order. *)
Lemma sort_insert_stable k x l :
  ok x → Forall ok l →
  filter (λ a, key a = k) (sort_insert cmp x l) = filter (λ a, key a = k) (x :: l).
Proof.
  intros Hx Hl. induction Hl as [|y l Hy Hl IH]; simpl; [done|].
  case_decide as Hc; [done|].
  assert (key y < key x) as Hlt.
  { destruct (decide (key x ≤ key y)) as [Hle|]; [|lia].
    apply cmp_key in Hle; done. }
  rewrite (filter_cons _ y), IH, !(filter_cons _ x), !(filter_cons _ y).
  repeat case_decide; try done; lia.
Qed.

Lemma array_sort_stable k l :
  Forall ok l →
  filter (λ a, key a = k) (array_sort cmp l) = filter (λ a, key a = k) l.
Proof.
  induction l as [|x l IH]; intros Hl; simpl; [done|].
  apply Forall_cons in Hl as [Hx Hl].
  rewrite sort_insert_stable; [|done|by apply array_sort_Forall].
  rewrite !(filter_cons _ x), IH; done.
Qed.

(** A sorted list is determined by the sequences of its elements of each
    key: every stable sort computes what [array_sort] computes. *)
Lemma stable_sorted_unique l1 l2 :
  StronglySorted (λ a b, key a ≤ key b) l1 →
  StronglySorted (λ a b, key a ≤ key b) l2 →
  (∀ k, filter (λ a, key a = k) l1 = filter (λ a, key a = k) l2) →
  l1 = l2.
Proof.
  intros H1. revert l2.
  induction H1 as [|a l1 H1 IH Ha]; intros l2 H2 Hf.
  - destruct l2 as [|b l2]; [done|].
    specialize (Hf (key b)). rewrite filter_cons in Hf.
    case_decide; [discriminate Hf|done].
  - destruct H2 as [|b l2 H2 Hb].
    { specialize (Hf (key a)). rewrite filter_cons in Hf.
      case_decide; [discriminate Hf|done]. }
    assert (key a = key b) as Hab.
    { pose proof (Hf (key a)) as Hfa. pose proof (Hf (key b)) as Hfb.
      rewrite (filter_cons _ a) in Hfa. rewrite (filter_cons _ b) in Hfb.
      case_decide; [|done]. case_decide; [|done].
      assert (a ∈ b :: l2) as Hin.
      { eapply (list_elem_of_filter (λ x, key x = key a)).
        rewrite <-Hfa. left. }
      assert (b ∈ a :: l1) as Hin'.
      { eapply (list_elem_of_filter (λ x, key x = key b)).
        rewrite Hfb. left. }
      apply elem_of_cons in Hin as [->|Hin]; [done|].
      apply elem_of_cons in Hin' as [->|Hin']; [done|].
      rewrite Forall_forall in Ha, Hb.
      specialize (Ha _ Hin'). specialize (Hb _ Hin). lia. }
    assert (a = b) as ->.
    { specialize (Hf (key a)). rewrite !filter_cons in Hf.
      rewrite decide_True in Hf by done.
      rewrite decide_True in Hf by done. congruence. }
    f_equal. apply IH; [done|]. intros k. specialize (Hf k).
    rewrite !filter_cons in Hf. case_decide; congruence.
Qed.
End ArraySortFacts.

(** ** The object store *)

Lemma getAll_Permutation (s : gmap Z Incident) : getAll s ≡ₚ (map_to_list s).*2.
Proof. unfold getAll. by rewrite array_sort_Permutation. Qed.

Lemma getAll_elem_of (s : gmap Z Incident) (i : Incident) :
  i ∈ getAll s ↔ ∃ k, s !! k = Some i.
Proof.
  rewrite getAll_Permutation, list_elem_of_fmap. split.
  - intros [[k j] [-> Hin]]. exists k. by apply elem_of_map_to_list.
  - intros [k Hk]. exists (k, i). split; [done|]. by apply elem_of_map_to_list.
Qed.

Lemma getAll_nil_iff (s : gmap Z Incident) : getAll s = [] ↔ s = ∅.
Proof.
  rewrite <-(map_to_list_empty_iff s). split.
  - intros H. pose proof (getAll_Permutation s) as Hp. rewrite H in Hp.
    apply Permutation_nil_l in Hp. symmetry in Hp. by apply fmap_nil_inv in Hp.
  - intros H. unfold getAll. by rewrite H.
Qed.

(** [getAll] lists the records by ascending key. *)
Lemma getAll_sorted (s : gmap Z Incident) :
  StronglySorted (λ a b : Z * Incident, a.1 ≤ b.1)
    (array_sort (λ p q : Z * Incident, p.1 - q.1) (map_to_list s)).
Proof.
  apply (array_sort_sorted _ fst (λ _, True)); [intros; lia|].
  by apply Forall_true.
Qed.

Lemma store_add_all_fresh (l : list Incident) (s : gmap Z Incident) :
  NoDup (id <$> l) →
  (∀ i, i ∈ l → s !! id i = None) →
  ∃ s', store_add_all l s = Some s'
        ∧ map_to_list s' ≡ₚ ((λ i, (id i, i)) <$> l) ++ map_to_list s.
Proof.
  revert s. induction l as [|i l IH]; intros s Hnd Hfresh; simpl.
  - by exists s.
  - apply NoDup_cons in Hnd as [Hi Hnd].
    unfold store_add. rewrite (Hfresh i) by left.
    destruct (IH (<[id i := i]> s)) as (s' & Hs' & Hp); [done| |].
    + intros j Hj. rewrite lookup_insert_ne.
      * apply Hfresh. by right.
      * intros Heq. apply Hi. rewrite Heq. apply list_elem_of_fmap. eauto.
    + exists s'. split; [done|]. rewrite Hp.
      rewrite map_to_list_insert by (apply Hfresh; left).
      by rewrite Permutation_middle.
Qed.

Lemma store_add_all_subseteq (l : list Incident) (s s' : gmap Z Incident) :
  store_add_all l s = Some s' → s ⊆ s'.
Proof.
  revert s. induction l as [|i l IH]; intros s; simpl.
  - by intros [= ->].
  - unfold store_add. destruct (s !! id i) eqn:Hi; [done|].
    intros H. apply IH in H. etrans; [|exact H]. by apply insert_subseteq.
Qed.

Lemma store_add_all_nonempty (l : list Incident) (s s' : gmap Z Incident) :
  l ≠ [] → store_add_all l s = Some s' → s' ≠ ∅.
Proof.
  destruct l as [|i l]; [done|]. intros _. simpl. unfold store_add.
  destruct (s !! id i) eqn:Hi; [done|]. intros H%store_add_all_subseteq ->.
  pose proof (lookup_weaken _ _ (id i) i (lookup_insert_eq s (id i) i) H) as Hl.
  by rewrite lookup_empty in Hl.
Qed.

(** A write of a non-empty record list never leaves the store empty unless
    it was empty before and the write was abandoned. *)
Lemma saveIncidentsToDB_nonempty (l : list Incident) (db : IDB) :
  l ≠ [] → objectStore db ≠ ∅ → objectStore (saveIncidentsToDB l db) ≠ ∅.
Proof.
  intros Hl Hdb. unfold saveIncidentsToDB. destruct (openDB db); [|done].
  destruct (store_add_all l ∅) eqn:Hs; [|done]. simpl.
  by eapply store_add_all_nonempty.
Qed.

Lemma saveIncidentsToDB_available (l : list Incident) (db : IDB) :
  idbAvailable (saveIncidentsToDB l db) = idbAvailable db.
Proof.
  unfold saveIncidentsToDB. destruct (openDB db); [|done].
  by destruct (store_add_all l ∅).
Qed.

Lemma seed_store :
  store_add_all initialIncidents ∅
  = Some (<[3 := mkIncident 3 "Minor Data Leak via Chatbot"
                   "Chatbot inadvertently exposed non-sensitive user metadata..."
                   Low "2025-03-20T09:15:00Z"]>
          (<[2 := mkIncident 2 "LLM Hallucination in Critical Info"
                    "LLM provided incorrect safety procedure information..."
                    High "2025-04-01T14:30:00Z"]>
           (<[1 := mkIncident 1 "Biased Recommendation Algorithm"
                     "Algorithm consistently favored certain demographics..."
                     Medium "2025-03-15T10:00:00Z"]> ∅))).
Proof. reflexivity. Qed.

Lemma loadIncidentsFromDB_nonempty_store (db : IDB) :
  idbAvailable db = true → objectStore db ≠ ∅ →
  loadIncidentsFromDB db = (getAll (objectStore db), db).
Proof.
  intros Ha Hne. unfold loadIncidentsFromDB, openDB. rewrite Ha.
  case_decide as Hlen; [done|]. exfalso. apply Hne, getAll_nil_iff.
  destruct (getAll (objectStore db)); [done|]. simpl in Hlen. lia.
Qed.

Lemma loadIncidentsFromDB_empty_store (db : IDB) :
  idbAvailable db = true → objectStore db = ∅ →
  loadIncidentsFromDB db = (initialIncidents, saveIncidentsToDB initialIncidents db).
Proof.
  intros Ha He. unfold loadIncidentsFromDB, openDB. rewrite Ha. cbv zeta.
  by rewrite (proj2 (getAll_nil_iff _) He).
Qed.

(** C1: with the database available, writing a non-empty list of incidents
    with pairwise-distinct ids by [saveIncidentsToDB] and reading the store
    back with [loadIncidentsFromDB] returns the same incidents, each exactly
    once and with all its fields (a permutation of the list written), and
    the read leaves the store as written. *)
Theorem save_load_roundtrip (db : IDB) (l : list Incident) :
  idbAvailable db = true →
  l ≠ [] →
  NoDup (id <$> l) →
  (loadIncidentsFromDB (saveIncidentsToDB l db)).1 ≡ₚ l
  ∧ (loadIncidentsFromDB (saveIncidentsToDB l db)).2 = saveIncidentsToDB l db.
Proof.
  intros Ha Hl Hnd.
  destruct (store_add_all_fresh l ∅ Hnd) as (s' & Hs' & Hp).
  { intros. apply lookup_empty. }
  assert (saveIncidentsToDB l db = mkIDB true s') as ->.
  { unfold saveIncidentsToDB, openDB. by rewrite Ha, Hs'. }
  rewrite loadIncidentsFromDB_nonempty_store; simpl; [|done|].
  - split; [|done]. rewrite getAll_Permutation, Hp, map_to_list_empty, app_nil_r.
    rewrite <-list_fmap_compose. by rewrite list_fmap_id.
  - by eapply store_add_all_nonempty.
Qed.

Lemma save_load_roundtrip_witness :
  (loadIncidentsFromDB (saveIncidentsToDB (rev initialIncidents) (mkIDB true ∅))).1
    ≡ₚ rev initialIncidents
  ∧ (loadIncidentsFromDB (saveIncidentsToDB (rev initialIncidents) (mkIDB true ∅))).2
    = saveIncidentsToDB (rev initialIncidents) (mkIDB true ∅).
Proof.
  apply (save_load_roundtrip (mkIDB true ∅) (rev initialIncidents)).
  - reflexivity.
  - discriminate.
  - apply (bool_decide_unpack _). reflexivity.
Defined.

(** C2: [loadIncidentsFromDB] never returns an empty list.  On an empty
    store it returns the seed set and writes it, so that the store then
    lists exactly the seed records and a second load returns the seed set
    again without another write; on a non-empty store it returns the stored
    records, each record of the store and nothing else, and leaves the store
    alone. *)
Theorem load_seeds_once (db : IDB) :
  (loadIncidentsFromDB db).1 ≠ []
  ∧ (idbAvailable db = true → objectStore db = ∅ →
       (loadIncidentsFromDB db).1 = initialIncidents
       ∧ (loadIncidentsFromDB db).2 = saveIncidentsToDB initialIncidents db
       ∧ getAll (objectStore (loadIncidentsFromDB db).2) = initialIncidents
       ∧ loadIncidentsFromDB (loadIncidentsFromDB db).2
         = (initialIncidents, (loadIncidentsFromDB db).2))
  ∧ (idbAvailable db = true → objectStore db ≠ ∅ →
       (loadIncidentsFromDB db).1 = getAll (objectStore db)
       ∧ (loadIncidentsFromDB db).2 = db
       ∧ ∀ i, i ∈ (loadIncidentsFromDB db).1 ↔ ∃ k, objectStore db !! k = Some i).
Proof.
  split; [|split].
  - unfold loadIncidentsFromDB. destruct (openDB db); [|done].
    simpl. case_decide as Hlen; [|done]. simpl.
    destruct (getAll g); [simpl in Hlen; lia|done].
  - intros Ha He. rewrite loadIncidentsFromDB_empty_store by done. simpl.
    assert (saveIncidentsToDB initialIncidents db
            = mkIDB true (default ∅ (store_add_all initialIncidents ∅))) as Hs.
    { unfold saveIncidentsToDB, openDB. rewrite Ha. by rewrite seed_store. }
    split; [done|]. split; [done|]. rewrite Hs. split; [by vm_compute|].
    rewrite loadIncidentsFromDB_nonempty_store; [|done|by vm_compute].
    f_equal.
  - intros Ha Hne. rewrite loadIncidentsFromDB_nonempty_store by done. simpl.
    split; [done|]. split; [done|]. intros i. apply getAll_elem_of.
Qed.

Lemma load_seeds_once_witness :
  (loadIncidentsFromDB (mkIDB true ∅)).1 = initialIncidents
  ∧ (loadIncidentsFromDB (mkIDB true ∅)).2
    = saveIncidentsToDB initialIncidents (mkIDB true ∅)
  ∧ getAll (objectStore (loadIncidentsFromDB (mkIDB true ∅)).2) = initialIncidents
  ∧ loadIncidentsFromDB (loadIncidentsFromDB (mkIDB true ∅)).2
    = (initialIncidents, (loadIncidentsFromDB (mkIDB true ∅)).2).
Proof.
  apply (load_seeds_once (mkIDB true ∅)); reflexivity.
Defined.

(** ** The handlers and the persisting effect *)

Lemma handle_incidentsSet (e : Event) (d : Dashboard) :
  incidentsSet (handle e d) = true ↔ mutates e d.
Proof.
  destruct e; simpl; try (split; [discriminate|done]).
  - unfold handleSubmit. case_decide as Hv; simpl.
    + split; [discriminate|]. intros [? ?]. by destruct Hv.
    + split; [|done]. intros _. split; intros Heq; apply Hv; auto.
  - destruct (isOpen (deletePopup d)); simpl; [done|]. split; discriminate.
  - destruct (isOpen (deletePopup d)); simpl; split; (discriminate || done).
Qed.

Lemma handle_incidents_unchanged (e : Event) (d : Dashboard) :
  ¬ mutates e d →
  incidents (nextState (handle e d)) = incidents d
  ∧ incidentsSet (handle e d) = false.
Proof.
  intros Hm. split.
  - destruct e; simpl in *; try done.
    + unfold handleSubmit. case_decide as Hv; [done|]. exfalso. apply Hm.
      split; intros Heq; apply Hv; auto.
    + destruct (isOpen (deletePopup d)); [done|done].
    + by destruct (isOpen (deletePopup d)).
  - destruct (incidentsSet (handle e d)) eqn:Hs; [|done].
    by apply handle_incidentsSet in Hs.
Qed.

Lemma dispatch_without_mutation (w : World) (e : Event) :
  ¬ mutates e (ui w) →
  incidents (ui (dispatch w e)) = incidents (ui w)
  ∧ idb (dispatch w e) = idb w
  ∧ saveCalls (dispatch w e) = saveCalls w.
Proof.
  intros Hm. apply handle_incidents_unchanged in Hm as [Hi Hs].
  unfold dispatch. by rewrite Hs.
Qed.

Lemma dispatch_with_mutation (w : World) (e : Event) :
  mutates e (ui w) →
  dispatch w e
  = persistEffect
      (mkWorld (nextState (handle e (ui w))) (idb w)
         (toasts w ++ shown (handle e (ui w))) (saveCalls w)).
Proof.
  intros Hm. apply handle_incidentsSet in Hm. unfold dispatch. by rewrite Hm.
Qed.

Lemma persistEffect_ui (w : World) : ui (persistEffect w) = ui w.
Proof. unfold persistEffect. by case_decide. Qed.

Lemma persistEffect_nonempty (w : World) :
  incidents (ui w) ≠ [] →
  persistEffect w
  = mkWorld (ui w) (saveIncidentsToDB (incidents (ui w)) (idb w)) (toasts w)
      (saveCalls w ++ [incidents (ui w)]).
Proof.
  intros Hne. unfold persistEffect. case_decide as Hlen; [done|].
  destruct (incidents (ui w)); [done|]. simpl in Hlen. lia.
Qed.

Lemma persistEffect_empty (w : World) :
  incidents (ui w) = [] → persistEffect w = w.
Proof. intros He. unfold persistEffect. by rewrite He. Qed.

(** What a submission that passes the validation does to the record set:
    the new record carries the clock readings and the form's fields, and is
    put in front of the records already there. *)
Lemma handleSubmit_prepends (now : Z) (nowISO : string) (d : Dashboard) :
  newTitle (newIncident d) ≠ EmptyString →
  newDescription (newIncident d) ≠ EmptyString →
  incidents (nextState (handleSubmit now nowISO d))
  = mkIncident now (newTitle (newIncident d)) (newDescription (newIncident d))
      (newSeverity (newIncident d)) nowISO :: incidents d.
Proof.
  intros Ht Hd. unfold handleSubmit. case_decide as Hv; [|done].
  by destruct Hv.
Qed.

Lemma filter_other_ids (x : Z) (l : list Incident) :
  x ∉ id <$> l → filter (λ i, id i ≠ x) l = l.
Proof.
  induction l as [|i l IH]; [done|]. rewrite fmap_cons, not_elem_of_cons.
  intros [Hx Hl]. rewrite filter_cons, decide_True by done. by rewrite IH.
Qed.

Lemma dispatch_mutation_effect (w : World) (e : Event) :
  mutates e (ui w) →
  (incidents (ui (dispatch w e)) ≠ [] →
     saveCalls (dispatch w e) = saveCalls w ++ [incidents (ui (dispatch w e))]
     ∧ idb (dispatch w e)
       = saveIncidentsToDB (incidents (ui (dispatch w e))) (idb w))
  ∧ (incidents (ui (dispatch w e)) = [] →
       saveCalls (dispatch w e) = saveCalls w ∧ idb (dispatch w e) = idb w).
Proof.
  intros Hm. rewrite (dispatch_with_mutation w e Hm).
  set (w' := mkWorld _ _ _ _). rewrite persistEffect_ui. split.
  - intros Hne. by rewrite (persistEffect_nonempty w' Hne).
  - intros He. by rewrite (persistEffect_empty w' He).
Qed.

(** C3 fails on the code: the effect announced as saving the incidents
    whenever they change skips the write when the record set is empty.  In
    [lastIncidentWorld] one record is left and the popup asks to delete it;
    the confirmation empties the record set and reports the deletion, yet
    no [saveIncidentsToDB] call is issued, the database still lists the
    record, and the next load brings it back. *)
Theorem delete_of_last_record_not_persisted :
  mutates ConfirmDelete (ui lastIncidentWorld)
  ∧ id <$> incidents (ui lastIncidentWorld) = [3]
  ∧ incidents (ui (dispatch lastIncidentWorld ConfirmDelete)) = []
  ∧ saveCalls (dispatch lastIncidentWorld ConfirmDelete) = saveCalls lastIncidentWorld
  ∧ saveCalls (dispatch lastIncidentWorld ConfirmDelete)
    ≠ saveCalls lastIncidentWorld
      ++ [incidents (ui (dispatch lastIncidentWorld ConfirmDelete))]
  ∧ id <$> getAll (objectStore (idb (dispatch lastIncidentWorld ConfirmDelete))) = [3]
  ∧ toasts (dispatch lastIncidentWorld ConfirmDelete)
    = toasts lastIncidentWorld
      ++ [toast_info ("Incident " +:+ quoted "Minor Data Leak via Chatbot"
                        +:+ " has been deleted")]
  ∧ id <$> incidents (ui (mount (idb (dispatch lastIncidentWorld ConfirmDelete)))) = [3].
Proof.
  split; [reflexivity|]. split; [reflexivity|]. split; [reflexivity|].
  split; [reflexivity|]. split; [|repeat split; reflexivity].
  intros H. apply (f_equal length) in H. vm_compute in H. discriminate.
Qed.

(** C4: a submission with an empty title or an empty description shows the
    error notification and changes nothing else: the component state (so
    the record set and its length), the database and the list of
    [saveIncidentsToDB] calls are what they were. *)
Theorem empty_submission_rejected (w : World) (now : Z) (nowISO : string) :
  newTitle (newIncident (ui w)) = EmptyString
  ∨ newDescription (newIncident (ui w)) = EmptyString →
  dispatch w (Submit now nowISO)
  = mkWorld (ui w) (idb w) (toasts w ++ [toast_error "Please fill all fields"])
      (saveCalls w)
  ∧ length (incidents (ui (dispatch w (Submit now nowISO))))
    = length (incidents (ui w)).
Proof.
  intros Hv.
  assert (handle (Submit now nowISO) (ui w)
          = mkOutcome (ui w) false [toast_error "Please fill all fields"]) as Hh.
  { simpl. unfold handleSubmit. by rewrite decide_True. }
  unfold dispatch. by rewrite Hh.
Qed.

Lemma empty_submission_rejected_witness :
  dispatch (dispatch freshWorld (ChangeTitle "Only a title")) (Submit 5 "x")
  = mkWorld (ui (dispatch freshWorld (ChangeTitle "Only a title")))
      (idb (dispatch freshWorld (ChangeTitle "Only a title")))
      (toasts (dispatch freshWorld (ChangeTitle "Only a title"))
         ++ [toast_error "Please fill all fields"])
      (saveCalls (dispatch freshWorld (ChangeTitle "Only a title")))
  ∧ length (incidents (ui (dispatch (dispatch freshWorld (ChangeTitle "Only a title"))
                             (Submit 5 "x"))))
    = length (incidents (ui (dispatch freshWorld (ChangeTitle "Only a title")))).
Proof.
  apply (empty_submission_rejected
           (dispatch freshWorld (ChangeTitle "Only a title")) 5 "x").
  right. reflexivity.
Defined.

(** C5 fails on the code: the id is the reading of [Date.now()], so two
    reports submitted within one millisecond get the same id.  In
    [sameInstantWorld] the two new records share the id 1700000000000, the
    ids of the record set are no longer pairwise distinct, and the write of
    that record set is abandoned: the database still holds the record set
    as it was after the first submission. *)
Theorem same_instant_creates_share_id :
  id <$> incidents (ui sameInstantWorld)
  = [1700000000000; 1700000000000; 1; 2; 3]
  ∧ title <$> incidents (ui sameInstantWorld)
    = ["B"; "A"; "Biased Recommendation Algorithm";
       "LLM Hallucination in Critical Info"; "Minor Data Leak via Chatbot"]
  ∧ ¬ NoDup (id <$> incidents (ui sameInstantWorld))
  ∧ last (saveCalls sameInstantWorld) = Some (incidents (ui sameInstantWorld))
  ∧ title <$> getAll (objectStore (idb sameInstantWorld))
    = ["Biased Recommendation Algorithm"; "LLM Hallucination in Critical Info";
       "Minor Data Leak via Chatbot"; "A"].
Proof.
  split; [reflexivity|]. split; [reflexivity|]. split; [|split; reflexivity].
  assert (id <$> incidents (ui sameInstantWorld)
          = [1700000000000; 1700000000000; 1; 2; 3]) as -> by reflexivity.
  intros H. apply NoDup_cons in H as [H _]. apply H. left.
Qed.

(** C6: asking to delete the record with id [x] leaves the record set
    alone; confirming then removes the records with id [x] and keeps the
    others in place; cancelling instead leaves the record set alone and
    takes the Delete button away; no event but the confirmation removes a
    record; and confirming for an id that no record carries leaves the
    record set as it was and shows the ordinary notification, not an
    error. *)
Theorem delete_is_two_phase (w : World) (x : Z) (t : string) :
  incidents (ui (dispatch w (ShowDeleteConfirm x t))) = incidents (ui w)
  ∧ incidents (ui (run w [ShowDeleteConfirm x t; ConfirmDelete]))
    = filter (λ i, id i ≠ x) (incidents (ui w))
  ∧ incidents (ui (run w [ShowDeleteConfirm x t; CancelDelete])) = incidents (ui w)
  ∧ incidents (ui (run w [ShowDeleteConfirm x t; CancelDelete; ConfirmDelete]))
    = incidents (ui w)
  ∧ (∀ e, e ≠ ConfirmDelete →
       incidents (ui w) `suffix_of` incidents (ui (dispatch w e)))
  ∧ (x ∉ id <$> incidents (ui w) →
       incidents (ui (run w [ShowDeleteConfirm x t; ConfirmDelete]))
       = incidents (ui w)
       ∧ toasts (run w [ShowDeleteConfirm x t; ConfirmDelete])
         = toasts w ++ [toast_info ("Incident " +:+ quoted t +:+ " has been deleted")]).
Proof.
  assert (incidents (ui (run w [ShowDeleteConfirm x t; ConfirmDelete]))
          = filter (λ i, id i ≠ x) (incidents (ui w))) as Hconfirm.
  { simpl. unfold dispatch at 1. simpl. by rewrite persistEffect_ui. }
  split; [done|]. split; [done|]. split; [done|]. split; [done|].
  split.
  - intros e He. destruct (decide (mutates e (ui w))) as [Hm|Hm].
    + destruct e; try done. rewrite (dispatch_with_mutation _ _ Hm).
      rewrite persistEffect_ui. destruct Hm as [Ht Hd]. simpl.
      rewrite handleSubmit_prepends by done. by apply suffix_cons_r.
    + by destruct (dispatch_without_mutation w e Hm) as [-> _].
  - intros Hx. split.
    + by rewrite Hconfirm, filter_other_ids.
    + simpl. unfold dispatch at 1. simpl. unfold persistEffect.
      case_decide; simpl; by rewrite app_nil_r.
Qed.

Lemma delete_is_two_phase_witness :
  incidents (ui (run freshWorld [ShowDeleteConfirm 7 "Gone"; ConfirmDelete]))
  = incidents (ui freshWorld)
  ∧ toasts (run freshWorld [ShowDeleteConfirm 7 "Gone"; ConfirmDelete])
    = toasts freshWorld
      ++ [toast_info ("Incident " +:+ quoted "Gone" +:+ " has been deleted")].
Proof.
  apply (delete_is_two_phase freshWorld 7 "Gone").
  apply (bool_decide_unpack _). reflexivity.
Defined.

(** ** The persisted store is never emptied by the application *)

Lemma persistEffect_store_nonempty (w : World) :
  objectStore (idb w) ≠ ∅ → objectStore (idb (persistEffect w)) ≠ ∅.
Proof.
  intros Hne. unfold persistEffect. case_decide as Hlen; [|done]. simpl.
  apply saveIncidentsToDB_nonempty; [|done].
  destruct (incidents (ui w)); [simpl in Hlen; lia|done].
Qed.

Lemma dispatch_store_nonempty (w : World) (e : Event) :
  objectStore (idb w) ≠ ∅ → objectStore (idb (dispatch w e)) ≠ ∅.
Proof.
  intros Hne. destruct (decide (mutates e (ui w))) as [Hm|Hm].
  - rewrite (dispatch_with_mutation _ _ Hm).
    by apply persistEffect_store_nonempty.
  - by destruct (dispatch_without_mutation w e Hm) as (_ & -> & _).
Qed.

Lemma run_store_nonempty (w : World) (es : list Event) :
  objectStore (idb w) ≠ ∅ → objectStore (idb (run w es)) ≠ ∅.
Proof.
  revert w. induction es as [|e es IH]; intros w Hne; [done|].
  apply IH. by apply dispatch_store_nonempty.
Qed.

Lemma loadIncidentsFromDB_store_nonempty (db : IDB) :
  idbAvailable db = true → objectStore (loadIncidentsFromDB db).2 ≠ ∅.
Proof.
  intros Ha. destruct (decide (objectStore db = ∅)) as [He|Hne].
  - rewrite loadIncidentsFromDB_empty_store by done. simpl.
    unfold saveIncidentsToDB, openDB. rewrite Ha, seed_store. simpl.
    apply insert_non_empty.
  - by rewrite loadIncidentsFromDB_nonempty_store.
Qed.

Lemma mount_store_nonempty (db : IDB) :
  idbAvailable db = true → objectStore (idb (mount db)) ≠ ∅.
Proof.
  intros Ha. unfold mount. rewrite persistEffect_empty by done. simpl.
  pose proof (loadIncidentsFromDB_store_nonempty db Ha) as Hne.
  destruct (loadIncidentsFromDB db) as [data db'].
  by apply persistEffect_store_nonempty.
Qed.

Lemma loadIncidentsFromDB_no_reseed (db : IDB) :
  objectStore db ≠ ∅ → (loadIncidentsFromDB db).2 = db.
Proof.
  intros Hne. destruct (idbAvailable db) eqn:Ha.
  - by rewrite loadIncidentsFromDB_nonempty_store.
  - unfold loadIncidentsFromDB, openDB. by rewrite Ha.
Qed.

(** C10: the persisting effect writes only non-empty record sets: an event
    either issues no [saveIncidentsToDB] call or issues one call with the
    non-empty record set it leaves, and on an empty record set the effect
    does nothing.  When the confirmed delete removes the only record, the
    record set becomes empty while the database and the list of calls stay
    as they were.  A non-empty store stays non-empty under every sequence
    of events, so with the database available the store is non-empty after
    the first render and after every later event, and the next load reads
    it without seeding. *)
Theorem persisted_store_never_emptied :
  (∀ w e,
     saveCalls (dispatch w e) = saveCalls w
     ∨ (incidents (ui (dispatch w e)) ≠ []
        ∧ saveCalls (dispatch w e) = saveCalls w ++ [incidents (ui (dispatch w e))]))
  ∧ (∀ w, incidents (ui w) = [] → persistEffect w = w)
  ∧ (∀ w x,
       isOpen (deletePopup (ui w)) = true →
       incidentId (deletePopup (ui w)) = id x →
       incidents (ui w) = [x] →
       incidents (ui (dispatch w ConfirmDelete)) = []
       ∧ idb (dispatch w ConfirmDelete) = idb w
       ∧ saveCalls (dispatch w ConfirmDelete) = saveCalls w)
  ∧ (∀ w es, objectStore (idb w) ≠ ∅ → objectStore (idb (run w es)) ≠ ∅)
  ∧ (∀ db es,
       idbAvailable db = true →
       objectStore (idb (run (mount db) es)) ≠ ∅
       ∧ (loadIncidentsFromDB (idb (run (mount db) es))).2 = idb (run (mount db) es)).
Proof.
  split; [|split; [|split; [|split]]].
  - intros w e. destruct (decide (mutates e (ui w))) as [Hm|Hm].
    + destruct (decide (incidents (ui (dispatch w e)) = [])) as [He|Hne].
      * left. by apply (dispatch_mutation_effect w e Hm).
      * right. split; [done|].
        by apply (dispatch_mutation_effect w e Hm).
    + left. by destruct (dispatch_without_mutation w e Hm) as (_ & _ & ->).
  - apply persistEffect_empty.
  - intros w x Ho Hid Hl.
    assert (incidents (ui (dispatch w ConfirmDelete)) = []) as He.
    { rewrite (dispatch_with_mutation w ConfirmDelete Ho), persistEffect_ui.
      simpl. rewrite Ho. simpl. rewrite Hl, Hid, filter_cons.
      by rewrite decide_False by (intros H; by apply H). }
    split; [done|].
    destruct (dispatch_mutation_effect w ConfirmDelete Ho) as (_ & H).
    by destruct (H He).
  - apply run_store_nonempty.
  - intros db es Ha.
    assert (objectStore (idb (run (mount db) es)) ≠ ∅) as Hne.
    { by apply run_store_nonempty, mount_store_nonempty. }
    split; [done|]. by apply loadIncidentsFromDB_no_reseed.
Qed.

Lemma persisted_store_never_emptied_witness :
  objectStore (idb (run (mount (mkIDB true ∅))
                      [ShowDeleteConfirm 1 "a"; ConfirmDelete;
                       ShowDeleteConfirm 2 "b"; ConfirmDelete;
                       ShowDeleteConfirm 3 "c"; ConfirmDelete])) ≠ ∅
  ∧ (loadIncidentsFromDB
       (idb (run (mount (mkIDB true ∅))
               [ShowDeleteConfirm 1 "a"; ConfirmDelete;
                ShowDeleteConfirm 2 "b"; ConfirmDelete;
                ShowDeleteConfirm 3 "c"; ConfirmDelete]))).2
    = idb (run (mount (mkIDB true ∅))
             [ShowDeleteConfirm 1 "a"; ConfirmDelete;
              ShowDeleteConfirm 2 "b"; ConfirmDelete;
              ShowDeleteConfirm 3 "c"; ConfirmDelete]).
Proof.
  apply (proj2 (proj2 (proj2 (proj2 persisted_store_never_emptied)))
           (mkIDB true ∅)).
  reflexivity.
Defined.

(** ** The filter stage *)

Lemma searchStage_empty (l : list Incident) : searchStage EmptyString l = l.
Proof.
  unfold searchStage. induction l as [|i l IH]; [done|].
  rewrite filter_cons, IH. unfold matchesSearch. simpl.
  by destruct (toLowerCase (title i)).
Qed.

(** C7: the filter stage keeps a record exactly when the filter is [All] or
    is the record's severity.  Its result is a subsequence of the record
    list; for [All] it is the whole list, for a severity it is the
    subsequence of the records of that severity; and with no search term
    the derived view holds exactly the records of the list that pass the
    filter. *)
Theorem filter_stage_correct (F : SeverityFilter) (R : list Incident) :
  (∀ i, i ∈ filterStage F R ↔ i ∈ R ∧ (F = All ∨ Only (severity i) = F))
  ∧ filterStage F R `sublist_of` R
  ∧ filterStage All R = R
  ∧ (∀ s, filterStage (Only s) R = filter (λ i, severity i = s) R)
  ∧ (∀ getTime o i,
       i ∈ deriveView getTime R F o EmptyString
       ↔ i ∈ R ∧ (F = All ∨ Only (severity i) = F)).
Proof.
  assert (∀ i, i ∈ filterStage F R ↔ i ∈ R ∧ (F = All ∨ Only (severity i) = F))
    as Hmem.
  { intros i. unfold filterStage. rewrite list_elem_of_filter.
    unfold matchesFilter. tauto. }
  split; [done|]. split; [apply sublist_filter|]. split; [|split].
  - clear Hmem. unfold filterStage. induction R as [|i R IH]; [done|].
    rewrite filter_cons, decide_True by by left. by f_equal.
  - intros s. unfold filterStage. apply list_filter_iff. intros i.
    unfold matchesFilter. split.
    + intros [?|[= ->]]; done.
    + intros ->. by right.
  - intros getTime o i. unfold deriveView, sortStage.
    by rewrite array_sort_Permutation, searchStage_empty.
Qed.

(** ** The search stage *)

Lemma append_empty_l (s : string) : EmptyString +:+ s = s.
Proof. reflexivity. Qed.

Lemma append_String (c : ascii) (a b : string) :
  String c a +:+ b = String c (a +:+ b).
Proof. reflexivity. Qed.

Lemma startsWith_spec (s t : string) :
  startsWith s t = true ↔ ∃ post, s = t +:+ post.
Proof.
  revert s. induction t as [|b t IH]; intros s; simpl.
  - split; [|by destruct s]. intros _. by exists s.
  - setoid_rewrite append_String. destruct s as [|a s]; simpl.
    + split; [discriminate|]. by intros [post ?].
    + case_decide as Hab.
      * subst b. rewrite IH. split; intros [post Hp]; exists post; congruence.
      * split; [discriminate|]. intros [post Hp]. congruence.
Qed.

Lemma includes_unfold (s t : string) :
  includes s t
  = if startsWith s t then true
    else match s with
         | EmptyString => false
         | String _ s' => includes s' t
         end.
Proof. by destruct s. Qed.

Lemma includes_spec (s t : string) :
  includes s t = true ↔ ∃ pre post, s = pre +:+ t +:+ post.
Proof.
  induction s as [|a s IH]; rewrite includes_unfold.
  - destruct (startsWith EmptyString t) eqn:Hs.
    + apply startsWith_spec in Hs as [post Hp]. split; [|done]. intros _.
      by exists EmptyString, post.
    + split; [discriminate|]. intros (pre & post & Hp).
      destruct pre; [|by rewrite append_String in Hp].
      rewrite append_empty_l in Hp.
      assert (startsWith EmptyString t = true) as H
        by (apply startsWith_spec; eauto).
      congruence.
  - destruct (startsWith (String a s) t) eqn:Hs.
    + apply startsWith_spec in Hs as [post Hp]. split; [|done]. intros _.
      by exists EmptyString, post.
    + rewrite IH. split.
      * intros (pre & post & ->). by exists (String a pre), post.
      * intros (pre & post & Hp). destruct pre as [|c pre].
        { rewrite append_empty_l in Hp.
          assert (startsWith (String a s) t = true) as H
            by (apply startsWith_spec; eauto).
          congruence. }
        rewrite append_String in Hp. injection Hp as -> ->. eauto.
Qed.

Lemma lowerAscii_app (a b : string) :
  lowerAscii (a +:+ b) = lowerAscii a +:+ lowerAscii b.
Proof.
  induction a as [|c a IH]; [done|].
  rewrite append_String. simpl. by rewrite IH, append_String.
Qed.

Lemma lowerAscii_app_inv (s a b : string) :
  lowerAscii s = a +:+ b →
  ∃ s1 s2, s = s1 +:+ s2 ∧ lowerAscii s1 = a ∧ lowerAscii s2 = b.
Proof.
  revert s. induction a as [|c a IH]; intros s Hs.
  - by exists EmptyString, s.
  - rewrite append_String in Hs.
    destruct s as [|c' s]; [discriminate|]. simpl in Hs.
    injection Hs as Hc Hs. destruct (IH s Hs) as (s1 & s2 & -> & H1 & H2).
    exists (String c' s1), s2. simpl. by rewrite Hc, H1.
Qed.

(** On ASCII text the runtime's lower-casing is the character-wise one. *)
Lemma lowerCodePoints_ascii (casedBefore : bool) (s : string) :
  isAscii s = true →
  fromCodePoints (lowerCodePoints casedBefore (codePoints s)) = lowerAscii s.
Proof.
  revert casedBefore. induction s as [|c s IH]; intros casedBefore; [done|].
  cbn [isAscii]. intros [Hc Hs]%andb_true_iff. apply N.ltb_lt in Hc.
  cbn [codePoints]. cbv zeta.
  rewrite (proj2 (N.ltb_lt _ 192)) by lia.
  cbn [lowerCodePoints fromCodePoints lowerAscii].
  rewrite IH by done.
  rewrite (proj2 (N.eqb_neq _ 931)) by lia.
  unfold lowerCodePoint, lowerAsciiChar.
  destruct ((65 <=? N_of_ascii c)%N && (N_of_ascii c <=? 90)%N) eqn:Hup.
  - apply andb_true_iff in Hup as [H1%N.leb_le H2%N.leb_le].
    unfold encodeCodePoint. rewrite (proj2 (N.ltb_lt _ 128)) by lia.
    by rewrite append_String, append_empty_l.
  - assert ((192 <=? N_of_ascii c)%N = false) as -> by (apply N.leb_gt; lia).
    cbn [andb].
    assert ((N_of_ascii c =? 902)%N = false) as -> by (apply N.eqb_neq; lia).
    assert ((904 <=? N_of_ascii c)%N = false) as -> by (apply N.leb_gt; lia).
    cbn [andb].
    assert ((N_of_ascii c =? 908)%N = false) as -> by (apply N.eqb_neq; lia).
    assert ((910 <=? N_of_ascii c)%N = false) as -> by (apply N.leb_gt; lia).
    assert ((913 <=? N_of_ascii c)%N = false) as -> by (apply N.leb_gt; lia).
    assert ((1024 <=? N_of_ascii c)%N = false) as -> by (apply N.leb_gt; lia).
    assert ((1040 <=? N_of_ascii c)%N = false) as -> by (apply N.leb_gt; lia).
    cbn [andb].
    unfold encodeCodePoint. rewrite (proj2 (N.ltb_lt _ 128)) by lia.
    by rewrite append_String, append_empty_l, ascii_N_embedding.
Qed.

Lemma toLowerCase_ascii (s : string) :
  isAscii s = true → toLowerCase s = lowerAscii s.
Proof. apply lowerCodePoints_ascii. Qed.

Lemma isAscii_app (a b : string) :
  isAscii (a +:+ b) = isAscii a && isAscii b.
Proof.
  induction a as [|c a IH]; [done|].
  rewrite append_String. cbn [isAscii]. by rewrite IH, andb_assoc.
Qed.

Lemma lowerAsciiChar_N (c : ascii) :
  N_of_ascii (lowerAsciiChar c)
  = (if ((65 <=? N_of_ascii c) && (N_of_ascii c <=? 90))%N
     then N_of_ascii c + 32 else N_of_ascii c)%N.
Proof.
  unfold lowerAsciiChar.
  destruct ((65 <=? N_of_ascii c)%N && (N_of_ascii c <=? 90)%N) eqn:Hup; [|done].
  apply andb_true_iff in Hup as [H1%N.leb_le H2%N.leb_le].
  apply N_ascii_embedding. lia.
Qed.

Lemma lowerAsciiChar_eq_iff (a b : ascii) :
  lowerAsciiChar a = lowerAsciiChar b ↔ sameLetter a b.
Proof.
  assert (∀ x y : ascii, x = y ↔ N_of_ascii x = N_of_ascii y) as Hinj.
  { intros x y. split; [by intros ->|]. intros H.
    by rewrite <-(ascii_N_embedding x), <-(ascii_N_embedding y), H. }
  unfold sameLetter. rewrite !Hinj, !lowerAsciiChar_N.
  destruct (N.leb_spec 65 (N_of_ascii a)), (N.leb_spec (N_of_ascii a) 90),
    (N.leb_spec 65 (N_of_ascii b)), (N.leb_spec (N_of_ascii b) 90);
    cbn [andb]; lia.
Qed.

Lemma lowerAscii_eq_iff (s t : string) :
  lowerAscii s = lowerAscii t ↔ equalIgnoringCase s t.
Proof.
  revert t. induction s as [|a s IH]; intros [|b t]; simpl; try (split; done).
  rewrite <-IH, <-lowerAsciiChar_eq_iff. split.
  - by intros [= -> ->].
  - by intros [-> ->].
Qed.

(** Lower-casing both strings character by character and testing for a
    substring is the test for a substring up to the case of letters. *)
Lemma includes_lowerAscii (text term : string) :
  includes (lowerAscii text) (lowerAscii term) = true
  ↔ containsIgnoringCase text term.
Proof.
  rewrite includes_spec. unfold containsIgnoringCase. split.
  - intros (pre & post & Hp).
    apply lowerAscii_app_inv in Hp as (s1 & s2 & -> & H1 & H2).
    apply lowerAscii_app_inv in H2 as (s3 & s4 & -> & H3 & H4).
    exists s1, s3, s4. split; [done|]. by apply lowerAscii_eq_iff.
  - intros (pre & mid & post & -> & Hm). apply lowerAscii_eq_iff in Hm.
    exists (lowerAscii pre), (lowerAscii post).
    by rewrite !lowerAscii_app, Hm.
Qed.

Lemma matchesSearch_ascii (term : string) (i : Incident) :
  isAscii term = true → asciiText i →
  (matchesSearch term i = true
   ↔ containsIgnoringCase (title i) term ∨ containsIgnoringCase (description i) term).
Proof.
  intros Ht [Hti Hde]. unfold matchesSearch.
  rewrite !toLowerCase_ascii by done.
  by rewrite orb_true_iff, !includes_lowerAscii.
Qed.

(** C8 fails on the code: the search lower-cases the title and the term
    separately, and lower-casing depends on the context.  The title of
    [sigmaIncident] is a capital omicron followed by a capital sigma; its
    lower-case form ends in the final sigma, while the term made of the
    capital sigma alone becomes the ordinary small sigma.  The record is
    dropped although its title contains the term as it stands; the longer
    term equal to the whole title finds it. *)
Theorem search_misses_final_sigma :
  title sigmaIncident = "Ο" +:+ "Σ" +:+ EmptyString
  ∧ toLowerCase (title sigmaIncident) = "ος"
  ∧ toLowerCase "Σ" = "σ"
  ∧ includes (title sigmaIncident) "Σ" = true
  ∧ matchesSearch "Σ" sigmaIncident = false
  ∧ searchStage "Σ" (sigmaIncident :: initialIncidents) = []
  ∧ searchStage "ΟΣ" (sigmaIncident :: initialIncidents) = [sigmaIncident].
Proof. repeat split; by vm_compute. Qed.

(** ** The sort stage *)

Lemma StronglySorted_on {A : Type} (ok : A → Prop) (R R' : A → A → Prop) (l : list A) :
  (∀ a b, ok a → ok b → R a b → R' a b) →
  Forall ok l → StronglySorted R l → StronglySorted R' l.
Proof.
  intros HR Hok Hs. induction Hs as [|a l Hs IH Ha]; [constructor|].
  apply Forall_cons in Hok as [Hoa Hol]. constructor; [by apply IH|].
  rewrite Forall_forall in Ha, Hol. apply Forall_forall. intros b Hb.
  apply HR; auto.
Qed.

Lemma filter_on {A : Type} (P Q : A → Prop)
    `{!∀ x, Decision (P x)} `{!∀ x, Decision (Q x)} (l : list A) :
  Forall (λ x, P x ↔ Q x) l → filter P l = filter Q l.
Proof.
  induction 1 as [|x l Hx Hl IH]; [done|].
  rewrite !filter_cons, IH. repeat case_decide; tauto.
Qed.

Section SortStageFacts.
Variable getTime : string → option Z.
Variable o : SortOrder.

Lemma compareReportedAt_sortKey (a b : Incident) :
  hasTime getTime a → hasTime getTime b →
  (compareReportedAt getTime o a b ≤ 0 ↔ sortKey getTime o a ≤ sortKey getTime o b).
Proof.
  intros [ta Ha] [tb Hb]. unfold compareReportedAt, sortKey.
  rewrite Ha, Hb. destruct o; simpl; lia.
Qed.

Lemma sortKey_inOrder (a b : Incident) :
  hasTime getTime a → hasTime getTime b →
  (sortKey getTime o a ≤ sortKey getTime o b ↔ inOrder getTime o a b).
Proof.
  intros [ta Ha] [tb Hb]. unfold inOrder, sortKey.
  rewrite Ha, Hb. destruct o; simpl; lia.
Qed.

Lemma sortKey_reportedAtTime (t : Z) (a : Incident) :
  hasTime getTime a →
  (reportedAtTime getTime t a
   ↔ sortKey getTime o a = match o with newest => - t | oldest => t end).
Proof.
  intros [ta Ha]. unfold reportedAtTime, sortKey. rewrite Ha.
  destruct o; simpl; split; intros H; (congruence || (f_equal; lia)).
Qed.

Lemma filter_reportedAtTime (t : Z) (l : list Incident) :
  Forall (hasTime getTime) l →
  filter (reportedAtTime getTime t) l
  = filter (λ a, sortKey getTime o a = match o with newest => - t | oldest => t end) l.
Proof.
  intros Hl. apply filter_on. eapply Forall_impl; [exact Hl|].
  intros a Ha. by apply sortKey_reportedAtTime.
Qed.

(** Any list that is in the requested order and keeps, for every
    timestamp, the records of that timestamp in their input order is the
    list the sort stage computes. *)
Lemma sortStage_unique (l l' : list Incident) :
  Forall (hasTime getTime) l → Forall (hasTime getTime) l' →
  StronglySorted (inOrder getTime o) l' →
  (∀ t, filter (reportedAtTime getTime t) l' = filter (reportedAtTime getTime t) l) →
  l' = sortStage getTime o l.
Proof.
  intros Hl Hl' Hs Hst.
  assert (Forall (hasTime getTime) (sortStage getTime o l)) as Hls
    by by apply array_sort_Forall.
  apply (stable_sorted_unique (sortKey getTime o)).
  - eapply (StronglySorted_on (hasTime getTime)); [|done..].
    intros a b Ha Hb. by apply sortKey_inOrder.
  - apply (array_sort_sorted _ _ (hasTime getTime)); [|done].
    apply compareReportedAt_sortKey.
  - intros k. unfold sortStage.
    rewrite (array_sort_stable _ _ (hasTime getTime))
      by (done || apply compareReportedAt_sortKey).
    pose (t := match o with newest => - k | oldest => k end).
    assert (k = match o with newest => - t | oldest => t end) as Hk
      by (subst t; destruct o; lia).
    clearbody t. rewrite Hk.
    rewrite <-!filter_reportedAtTime by done. apply Hst.
Qed.
End SortStageFacts.

(** C9: on records whose [reported_at] is a date, the sort stage returns
    the same records (a permutation), ordered by timestamp, descending for
    [newest] and ascending for [oldest], and it is stable: for every
    timestamp, the records carrying it appear in the order they had in the
    input.  Records with the timestamps T1 < T2 < T3, given in that order,
    come out as T3, T2, T1 for [newest] and as T1, T2, T3 for [oldest]. *)
Theorem sort_stage_correct (getTime : string → option Z) (o : SortOrder)
    (l : list Incident) :
  Forall (hasTime getTime) l →
  sortStage getTime o l ≡ₚ l
  ∧ StronglySorted (inOrder getTime o) (sortStage getTime o l)
  ∧ (∀ t, filter (reportedAtTime getTime t) (sortStage getTime o l)
          = filter (reportedAtTime getTime t) l)
  ∧ (∀ a b c t1 t2 t3,
       l = [a; b; c] →
       getTime (reported_at a) = Some t1 →
       getTime (reported_at b) = Some t2 →
       getTime (reported_at c) = Some t3 →
       t1 < t2 → t2 < t3 →
       sortStage getTime o l
       = match o with newest => [c; b; a] | oldest => [a; b; c] end).
Proof.
  intros Hl.
  assert (Forall (hasTime getTime) (sortStage getTime o l)) as Hls
    by by apply array_sort_Forall.
  split; [apply array_sort_Permutation|]. split; [|split].
  - eapply (StronglySorted_on (hasTime getTime)); [|exact Hls|].
    + intros a b Ha Hb. by apply sortKey_inOrder.
    + apply (array_sort_sorted _ _ (hasTime getTime)); [|done].
      apply compareReportedAt_sortKey.
  - intros t. rewrite !(filter_reportedAtTime getTime o) by done.
    apply (array_sort_stable _ _ (hasTime getTime)); [|done].
    apply compareReportedAt_sortKey.
  - intros a b c t1 t2 t3 -> Ha Hb Hc H12 H23.
    assert (∀ x y tx ty,
              getTime (reported_at x) = Some tx →
              getTime (reported_at y) = Some ty →
              compareReportedAt getTime o x y
              = match o with newest => ty - tx | oldest => tx - ty end) as Hcmp.
    { intros x y tx ty Hx Hy. unfold compareReportedAt. by rewrite Hx, Hy. }
    unfold sortStage. cbn [array_sort sort_insert].
    rewrite (Hcmp b c t2 t3) by done.
    destruct o.
    + rewrite decide_False by lia. cbn [sort_insert].
      rewrite (Hcmp a c t1 t3), decide_False by (done || lia). cbn [sort_insert].
      by rewrite (Hcmp a b t1 t2), decide_False by (done || lia).
    + rewrite decide_True by lia. cbn [sort_insert].
      by rewrite (Hcmp a b t1 t2), decide_True by (done || lia).
Qed.

Lemma sort_stage_correct_witness :
  sortStage isoTime newest initialIncidents ≡ₚ initialIncidents
  ∧ StronglySorted (inOrder isoTime newest) (sortStage isoTime newest initialIncidents)
  ∧ (∀ t, filter (reportedAtTime isoTime t) (sortStage isoTime newest initialIncidents)
          = filter (reportedAtTime isoTime t) initialIncidents)
  ∧ (∀ a b c t1 t2 t3,
       initialIncidents = [a; b; c] →
       isoTime (reported_at a) = Some t1 →
       isoTime (reported_at b) = Some t2 →
       isoTime (reported_at c) = Some t3 →
       t1 < t2 → t2 < t3 →
       sortStage isoTime newest initialIncidents = [c; b; a]).
Proof.
  apply (sort_stage_correct isoTime newest initialIncidents).
  apply (bool_decide_unpack _). reflexivity.
Defined.

(** ** The end-to-end scenario of the specification *)

Example end_to_end_scenario :
  title <$> filteredIncidents isoTime (ui scenarioWorld)
  = ["Test"; "LLM Hallucination in Critical Info"]
  ∧ title <$> filteredIncidents isoTime
                (ui (run scenarioWorld
                       [ShowDeleteConfirm 2 "LLM Hallucination in Critical Info";
                        ConfirmDelete]))
    = ["Test"]
  ∧ title <$> getAll (objectStore
                        (idb (run scenarioWorld
                                [ShowDeleteConfirm 2 "LLM Hallucination in Critical Info";
                                 ConfirmDelete])))
    = ["Biased Recommendation Algorithm"; "Minor Data Leak via Chatbot"; "Test"].
Proof. repeat split; reflexivity. Qed.

(** * Further properties of the code *)

(** ** Writing and reading the object store *)

Lemma store_add_all_Some_inv (l : list Incident) (s s' : gmap Z Incident) :
  store_add_all l s = Some s' →
  NoDup (id <$> l) ∧ ∀ i, i ∈ l → s !! id i = None.
Proof.
  revert s. induction l as [|i l IH]; intros s; simpl.
  - intros _. split; [constructor|]. intros i Hi. by apply elem_of_nil in Hi.
  - unfold store_add. destruct (s !! id i) eqn:Hi; [done|].
    intros H. apply IH in H as [Hnd Hfresh].
    assert (∀ j, j ∈ l → id j ≠ id i ∧ s !! id j = None) as Hl.
    { intros j Hj. specialize (Hfresh j Hj).
      apply lookup_insert_None in Hfresh as [? ?]. by split. }
    split.
    + constructor; [|done].
      intros (j & Hij & Hj)%list_elem_of_fmap.
      destruct (Hl j Hj) as [Hne _]. congruence.
    + intros j [->|Hj]%elem_of_cons; [done|]. by apply Hl.
Qed.

Lemma store_add_all_keyed (l : list Incident) (s s' : gmap Z Incident) :
  keyed s → store_add_all l s = Some s' → keyed s'.
Proof.
  revert s. induction l as [|i l IH]; intros s Hk; simpl.
  - by intros [= ->].
  - unfold store_add. destruct (s !! id i) eqn:Hi; [done|].
    apply IH. intros k j. rewrite lookup_insert.
    case_decide as Hc; [|by apply Hk]. by intros [= <-].
Qed.

Lemma NoDup_fmap_eq {A B : Type} (f : A → B) (l : list A) (a b : A) :
  NoDup (f <$> l) → a ∈ l → b ∈ l → f a = f b → a = b.
Proof.
  induction l as [|x l IH]; intros Hnd Ha Hb Hf.
  { by apply elem_of_nil in Ha. }
  rewrite fmap_cons in Hnd. apply NoDup_cons in Hnd as [Hx Hnd].
  apply elem_of_cons in Ha as [->|Ha]; apply elem_of_cons in Hb as [->|Hb].
  - done.
  - exfalso. apply Hx. rewrite Hf. apply list_elem_of_fmap. eauto.
  - exfalso. apply Hx. rewrite <-Hf. apply list_elem_of_fmap. eauto.
  - by apply IH.
Qed.

Lemma getAll_sorted_by_id (s : gmap Z Incident) :
  keyed s → StronglySorted (λ a b : Incident, id a ≤ id b) (getAll s).
Proof.
  intros Hk. unfold getAll.
  pose proof (getAll_sorted s) as Hs.
  assert (Forall (λ p : Z * Incident, id p.2 = p.1)
            (array_sort (λ p q : Z * Incident, p.1 - q.1) (map_to_list s))) as Hf.
  { apply array_sort_Forall, Forall_forall. intros [k i] Hin. simpl.
    apply Hk. by apply elem_of_map_to_list. }
  induction Hs as [|p l Hs IH Hp]; [constructor|].
  apply Forall_cons in Hf as [Hp1 Hf]. rewrite fmap_cons.
  constructor; [by apply IH|].
  apply Forall_fmap, Forall_forall. intros q Hq. simpl.
  rewrite Forall_forall in Hp, Hf. rewrite Hp1, (Hf q Hq). by apply Hp.
Qed.

(** What [getAll] returns after a successful write. *)
Lemma getAll_store_add_all (l : list Incident) (s' : gmap Z Incident) :
  store_add_all l ∅ = Some s' →
  getAll s' = array_sort (λ a b : Incident, id a - id b) l.
Proof.
  intros Hs.
  destruct (store_add_all_Some_inv _ _ _ Hs) as [Hnd _].
  destruct (store_add_all_fresh l ∅ Hnd) as (s'' & Hs'' & Hp).
  { intros. apply lookup_empty. }
  assert (s'' = s') as -> by congruence.
  assert (getAll s' ≡ₚ l) as Hperm.
  { rewrite getAll_Permutation, Hp, map_to_list_empty, app_nil_r.
    rewrite <-list_fmap_compose. by rewrite list_fmap_id. }
  apply (StronglySorted_unique_strong (λ a b : Incident, id a ≤ id b)).
  - intros a b Ha Hb Hab Hba. apply (NoDup_fmap_eq id l); [done| | |lia].
    + by rewrite Hperm in Ha.
    + by rewrite array_sort_Permutation in Hb.
  - apply getAll_sorted_by_id. eapply store_add_all_keyed; [|exact Hs].
    intros k i. by rewrite lookup_empty.
  - apply (array_sort_sorted _ id (λ _, True)); [intros; lia|].
    by apply Forall_true.
  - by rewrite Hperm, array_sort_Permutation.
Qed.

Lemma saveIncidentsToDB_distinct (l : list Incident) (db : IDB) :
  idbAvailable db = true → NoDup (id <$> l) →
  ∃ s, store_add_all l ∅ = Some s ∧ saveIncidentsToDB l db = mkIDB true s.
Proof.
  intros Ha Hnd. destruct (store_add_all_fresh l ∅ Hnd) as (s & Hs & _).
  { intros. apply lookup_empty. }
  exists s. split; [done|]. unfold saveIncidentsToDB, openDB. by rewrite Ha, Hs.
Qed.

Lemma saveIncidentsToDB_duplicate (l : list Incident) (db : IDB) :
  ¬ NoDup (id <$> l) → saveIncidentsToDB l db = db.
Proof.
  intros Hnd. unfold saveIncidentsToDB. destruct (openDB db); [|done].
  destruct (store_add_all l ∅) eqn:Hs; [|done].
  by apply store_add_all_Some_inv in Hs as [? _].
Qed.

Lemma store_add_all_getAll (s : gmap Z Incident) :
  keyed s → store_add_all (getAll s) ∅ = Some s.
Proof.
  intros Hk.
  assert ((λ i, (id i, i)) <$> (map_to_list s).*2 = map_to_list s) as Hpairs.
  { rewrite <-list_fmap_compose. rewrite <-(list_fmap_id (map_to_list s)) at 2.
    apply Forall_fmap_ext, Forall_forall. intros [k i] Hin. simpl.
    f_equal. apply Hk. by apply elem_of_map_to_list. }
  assert (NoDup (id <$> getAll s)) as Hnd.
  { rewrite getAll_Permutation.
    replace (id <$> (map_to_list s).*2) with ((map_to_list s).*1).
    - apply NoDup_fst_map_to_list.
    - rewrite <-Hpairs at 1. rewrite <-list_fmap_compose. done. }
  destruct (store_add_all_fresh (getAll s) ∅ Hnd) as (s' & Hs' & Hp).
  { intros. apply lookup_empty. }
  rewrite Hs'. f_equal. apply map_to_list_inj.
  by rewrite Hp, map_to_list_empty, app_nil_r, getAll_Permutation, Hpairs.
Qed.

(** X1: a write is all or nothing.  With the database open, a list with
    pairwise-distinct ids replaces the whole store, which then lists exactly
    that list in ascending id order; a list in which two records share an
    id is not written at all and the database stays as it was. *)
Theorem save_all_or_nothing (db : IDB) (l : list Incident) :
  idbAvailable db = true →
  (NoDup (id <$> l) →
     getAll (objectStore (saveIncidentsToDB l db))
     = array_sort (λ a b : Incident, id a - id b) l)
  ∧ (¬ NoDup (id <$> l) → saveIncidentsToDB l db = db).
Proof.
  intros Ha. split; [|apply saveIncidentsToDB_duplicate].
  intros Hnd. destruct (saveIncidentsToDB_distinct l db Ha Hnd) as (s & Hs & ->).
  simpl. by apply getAll_store_add_all.
Qed.

Lemma save_all_or_nothing_witness :
  getAll (objectStore (saveIncidentsToDB (reverse initialIncidents) (mkIDB true ∅)))
  = array_sort (λ a b : Incident, id a - id b) (reverse initialIncidents).
Proof.
  refine (proj1 (save_all_or_nothing (mkIDB true ∅) (reverse initialIncidents) _) _).
  - reflexivity.
  - apply (bool_decide_unpack _). reflexivity.
Defined.

(** X2: with the database open, reading back a non-empty list written with
    pairwise-distinct ids returns the list sorted by ascending id, whatever
    order it was written in, and does not touch the store. *)
Theorem load_after_save_sorted_by_id (db : IDB) (l : list Incident) :
  idbAvailable db = true → l ≠ [] → NoDup (id <$> l) →
  loadIncidentsFromDB (saveIncidentsToDB l db)
  = (array_sort (λ a b : Incident, id a - id b) l, saveIncidentsToDB l db).
Proof.
  intros Ha Hl Hnd.
  destruct (saveIncidentsToDB_distinct l db Ha Hnd) as (s & Hs & ->).
  rewrite loadIncidentsFromDB_nonempty_store; simpl; [|done|].
  - by rewrite (getAll_store_add_all l s Hs).
  - by eapply store_add_all_nonempty.
Qed.

Lemma load_after_save_sorted_by_id_witness :
  loadIncidentsFromDB (saveIncidentsToDB (reverse initialIncidents) (mkIDB true ∅))
  = (array_sort (λ a b : Incident, id a - id b) (reverse initialIncidents),
     saveIncidentsToDB (reverse initialIncidents) (mkIDB true ∅)).
Proof.
  apply (load_after_save_sorted_by_id (mkIDB true ∅) (reverse initialIncidents)).
  - reflexivity.
  - discriminate.
  - apply (bool_decide_unpack _). reflexivity.
Defined.

(** X3: a write of a list with pairwise-distinct ids supersedes any
    earlier write: nothing of what the earlier call stored survives. *)
Theorem save_supersedes_earlier_save (db : IDB) (l1 l2 : list Incident) :
  NoDup (id <$> l2) →
  saveIncidentsToDB l2 (saveIncidentsToDB l1 db) = saveIncidentsToDB l2 db.
Proof.
  intros Hnd. destruct (idbAvailable db) eqn:Ha.
  - destruct (saveIncidentsToDB_distinct l2 db Ha Hnd) as (s & Hs & ->).
    destruct (saveIncidentsToDB_distinct l2 (saveIncidentsToDB l1 db)) as (s' & Hs' & ->);
      [by rewrite saveIncidentsToDB_available|done|].
    congruence.
  - assert (∀ l, saveIncidentsToDB l db = db) as Hno.
    { intros l. unfold saveIncidentsToDB, openDB. by rewrite Ha. }
    by rewrite !Hno.
Qed.

Lemma save_supersedes_earlier_save_witness :
  saveIncidentsToDB (take 1 initialIncidents)
    (saveIncidentsToDB initialIncidents (mkIDB true ∅))
  = saveIncidentsToDB (take 1 initialIncidents) (mkIDB true ∅).
Proof.
  apply (save_supersedes_earlier_save (mkIDB true ∅) initialIncidents
           (take 1 initialIncidents)).
  apply (bool_decide_unpack _). reflexivity.
Defined.

(** X4: writing back what was read changes nothing: on an open database
    whose records are filed under their own ids, [saveIncidentsToDB] of the
    result of [getAll] leaves the database as it is. *)
Theorem write_back_is_identity (db : IDB) :
  idbAvailable db = true → keyed (objectStore db) →
  saveIncidentsToDB (getAll (objectStore db)) db = db.
Proof.
  intros Ha Hk. unfold saveIncidentsToDB, openDB.
  rewrite Ha, store_add_all_getAll by done. destruct db. simpl in *. by subst.
Qed.

Lemma write_back_is_identity_witness :
  saveIncidentsToDB
    (getAll (objectStore (saveIncidentsToDB initialIncidents (mkIDB true ∅))))
    (saveIncidentsToDB initialIncidents (mkIDB true ∅))
  = saveIncidentsToDB initialIncidents (mkIDB true ∅).
Proof.
  apply (write_back_is_identity (saveIncidentsToDB initialIncidents (mkIDB true ∅))).
  - reflexivity.
  - apply (store_add_all_keyed initialIncidents ∅).
    + intros k i. by rewrite lookup_empty.
    + reflexivity.
Defined.

(** X5: loading is idempotent: a second [loadIncidentsFromDB] returns the
    records of the first and leaves the database as the first left it,
    whether the store was empty, non-empty or could not be opened. *)
Theorem load_is_idempotent (db : IDB) :
  loadIncidentsFromDB (loadIncidentsFromDB db).2 = loadIncidentsFromDB db.
Proof.
  destruct (idbAvailable db) eqn:Ha.
  - destruct (decide (objectStore db = ∅)) as [He|Hne].
    + rewrite (loadIncidentsFromDB_empty_store db) by done. simpl.
      assert (saveIncidentsToDB initialIncidents db
              = mkIDB true (default ∅ (store_add_all initialIncidents ∅))) as ->.
      { unfold saveIncidentsToDB, openDB. by rewrite Ha, seed_store. }
      rewrite loadIncidentsFromDB_nonempty_store; [|done|by vm_compute].
      f_equal.
    + rewrite (loadIncidentsFromDB_nonempty_store db) by done. simpl.
      by rewrite (loadIncidentsFromDB_nonempty_store db).
  - unfold loadIncidentsFromDB, openDB. rewrite Ha. simpl. by rewrite Ha.
Qed.

(** ** The running application *)

Lemma saveIncidentsToDB_keyed (l : list Incident) (db : IDB) :
  keyed (objectStore db) → keyed (objectStore (saveIncidentsToDB l db)).
Proof.
  intros Hk. unfold saveIncidentsToDB. destruct (openDB db); [|done].
  destruct (store_add_all l ∅) eqn:Hs; [|done]. simpl.
  eapply store_add_all_keyed; [|exact Hs]. intros k i. by rewrite lookup_empty.
Qed.

Lemma persistEffect_idb (w : World) :
  idb (persistEffect w) = idb w
  ∨ idb (persistEffect w) = saveIncidentsToDB (incidents (ui w)) (idb w).
Proof. unfold persistEffect. case_decide; simpl; auto. Qed.

Lemma dispatch_idb (w : World) (e : Event) :
  idb (dispatch w e) = idb w
  ∨ ∃ l, idb (dispatch w e) = saveIncidentsToDB l (idb w).
Proof.
  destruct (decide (mutates e (ui w))) as [Hm|Hm].
  - rewrite (dispatch_with_mutation _ _ Hm).
    destruct (persistEffect_idb
                (mkWorld (nextState (handle e (ui w))) (idb w)
                   (toasts w ++ shown (handle e (ui w))) (saveCalls w)))
      as [->| ->]; simpl; eauto.
  - left. by destruct (dispatch_without_mutation w e Hm) as (_ & -> & _).
Qed.

(** A property of the database that every write keeps holds along every
    run. *)
Lemma run_idb_invariant (P : IDB → Prop) (w : World) (es : list Event) :
  (∀ l db, P db → P (saveIncidentsToDB l db)) →
  P (idb w) → P (idb (run w es)).
Proof.
  intros Hsave. revert w. induction es as [|e es IH]; intros w Hw; [done|].
  apply IH. destruct (dispatch_idb w e) as [->|[l ->]]; auto.
Qed.

Lemma mount_idb_invariant (P : IDB → Prop) (db : IDB) :
  (∀ l db, P db → P (saveIncidentsToDB l db)) →
  P db → P (idb (mount db)).
Proof.
  intros Hsave Hdb. unfold mount. rewrite persistEffect_empty by done. simpl.
  assert (P (loadIncidentsFromDB db).2) as Hl.
  { unfold loadIncidentsFromDB. destruct (openDB db); [|done]. simpl.
    case_decide; simpl; auto. }
  destruct (loadIncidentsFromDB db) as [data db'].
  match goal with |- P (idb (persistEffect ?w)) =>
    destruct (persistEffect_idb w) as [->| ->] end; simpl; auto.
Qed.

(** X6: every record of the store stays filed under its own id: the
    property holds after the first render and after every later sequence of
    events if it holds of the database the application starts from. *)
Theorem store_stays_keyed (db : IDB) (es : list Event) :
  keyed (objectStore db) → keyed (objectStore (idb (run (mount db) es))).
Proof.
  intros Hk.
  apply (run_idb_invariant (λ d, keyed (objectStore d)));
    [intros; by apply saveIncidentsToDB_keyed|].
  apply (mount_idb_invariant (λ d, keyed (objectStore d)));
    [intros; by apply saveIncidentsToDB_keyed|done].
Qed.

Lemma store_stays_keyed_witness :
  keyed (objectStore (idb (run (mount (mkIDB true ∅))
                             [ShowDeleteConfirm 2 "x"; ConfirmDelete]))).
Proof.
  apply (store_stays_keyed (mkIDB true ∅) [ShowDeleteConfirm 2 "x"; ConfirmDelete]).
  intros k i. simpl. by rewrite lookup_empty.
Defined.

(** X7: when the database cannot be opened the application runs on the
    seed set and never writes: the first render shows the seed records,
    the persisting effect still issues its call, and after every sequence of
    events the database is what it was. *)
Theorem unavailable_database_is_never_written (db : IDB) (es : list Event) :
  idbAvailable db = false →
  incidents (ui (mount db)) = initialIncidents
  ∧ saveCalls (mount db) = [initialIncidents]
  ∧ idb (run (mount db) es) = db.
Proof.
  intros Ha.
  assert (∀ l, saveIncidentsToDB l db = db) as Hno.
  { intros l. unfold saveIncidentsToDB, openDB. by rewrite Ha. }
  assert (mount db
          = mkWorld (setIncidents (λ _, initialIncidents) initialDashboard) db []
              [initialIncidents]) as Hm.
  { unfold mount. rewrite persistEffect_empty by done. simpl.
    unfold loadIncidentsFromDB, openDB. rewrite Ha.
    unfold persistEffect. simpl. by rewrite Hno. }
  split; [by rewrite Hm|]. split; [by rewrite Hm|].
  apply (run_idb_invariant (λ d, d = db)).
  - intros l d ->. apply Hno.
  - by rewrite Hm.
Qed.

Lemma unavailable_database_is_never_written_witness :
  incidents (ui (mount (mkIDB false ∅))) = initialIncidents
  ∧ saveCalls (mount (mkIDB false ∅)) = [initialIncidents]
  ∧ idb (run (mount (mkIDB false ∅))
           [ChangeTitle "T"; ChangeDescription "d"; Submit 10 "x"])
    = mkIDB false ∅.
Proof.
  apply (unavailable_database_is_never_written (mkIDB false ∅)
           [ChangeTitle "T"; ChangeDescription "d"; Submit 10 "x"]).
  reflexivity.
Defined.

(** X8: after the first render on an open database whose records are
    filed under their own ids, the record set in memory is exactly what the
    store lists and is not empty; a non-empty database is left as it was
    found. *)
Theorem mount_in_sync (db : IDB) :
  idbAvailable db = true → keyed (objectStore db) →
  incidents (ui (mount db)) = getAll (objectStore (idb (mount db)))
  ∧ incidents (ui (mount db)) ≠ []
  ∧ (objectStore db ≠ ∅ → idb (mount db) = db).
Proof.
  intros Ha Hk. unfold mount. rewrite persistEffect_empty by done. simpl.
  destruct (decide (objectStore db = ∅)) as [He|Hne].
  - rewrite loadIncidentsFromDB_empty_store by done.
    assert (saveIncidentsToDB initialIncidents db
            = mkIDB true (default ∅ (store_add_all initialIncidents ∅))) as ->.
    { unfold saveIncidentsToDB, openDB. by rewrite Ha, seed_store. }
    split; [by vm_compute|]. split; [by vm_compute|done].
  - rewrite loadIncidentsFromDB_nonempty_store by done.
    assert (getAll (objectStore db) ≠ []) as Hg by by rewrite getAll_nil_iff.
    rewrite persistEffect_nonempty by done. simpl.
    assert (saveIncidentsToDB (getAll (objectStore db)) db = db) as ->.
    { unfold saveIncidentsToDB, openDB.
      rewrite Ha, store_add_all_getAll by done. destruct db. simpl in *. by subst. }
    done.
Qed.

Lemma mount_in_sync_witness :
  incidents (ui (mount (saveIncidentsToDB (take 2 initialIncidents) (mkIDB true ∅))))
  = getAll (objectStore
              (idb (mount (saveIncidentsToDB (take 2 initialIncidents) (mkIDB true ∅)))))
  ∧ incidents (ui (mount (saveIncidentsToDB (take 2 initialIncidents) (mkIDB true ∅))))
    ≠ []
  ∧ (objectStore (saveIncidentsToDB (take 2 initialIncidents) (mkIDB true ∅)) ≠ ∅ →
     idb (mount (saveIncidentsToDB (take 2 initialIncidents) (mkIDB true ∅)))
     = saveIncidentsToDB (take 2 initialIncidents) (mkIDB true ∅)).
Proof.
  apply (mount_in_sync (saveIncidentsToDB (take 2 initialIncidents) (mkIDB true ∅))).
  - reflexivity.
  - apply saveIncidentsToDB_keyed. intros k i. simpl. by rewrite lookup_empty.
Defined.

Lemma mount_incidents (db : IDB) :
  incidents (ui (mount db)) = (loadIncidentsFromDB db).1.
Proof.
  unfold mount. rewrite persistEffect_empty by done. simpl.
  destruct (loadIncidentsFromDB db) as [data db']. by rewrite persistEffect_ui.
Qed.

(** The record set after one event: unchanged, one record more in front,
    or the records of one id removed. *)
Lemma dispatch_incidents (w : World) (e : Event) :
  incidents (ui (dispatch w e)) = incidents (ui w)
  ∨ (∃ now nowISO,
       e = Submit now nowISO
       ∧ newTitle (newIncident (ui w)) ≠ EmptyString
       ∧ newDescription (newIncident (ui w)) ≠ EmptyString
       ∧ incidents (ui (dispatch w e))
         = mkIncident now (newTitle (newIncident (ui w)))
             (newDescription (newIncident (ui w)))
             (newSeverity (newIncident (ui w))) nowISO :: incidents (ui w))
  ∨ (e = ConfirmDelete
     ∧ incidents (ui (dispatch w e))
       = filter (λ i, id i ≠ incidentId (deletePopup (ui w))) (incidents (ui w))).
Proof.
  destruct (decide (mutates e (ui w))) as [Hm|Hm].
  - rewrite (dispatch_with_mutation _ _ Hm), persistEffect_ui.
    destruct e; try done; simpl in *.
    + right. left. destruct Hm as [Ht Hd]. exists now, nowISO.
      by rewrite handleSubmit_prepends.
    + right. right. by rewrite Hm.
  - left. by destruct (dispatch_without_mutation w e Hm) as [-> _].
Qed.

(** X9: a reload after a persisted change returns the record set: when the
    database is open and a successful create or confirmed delete leaves a
    non-empty record set with pairwise-distinct ids, [loadIncidentsFromDB]
    on the resulting database returns that record set sorted by id, and a
    fresh render of the component on it shows the same records. *)
Theorem reload_returns_record_set (w : World) (e : Event) :
  idbAvailable (idb w) = true →
  mutates e (ui w) →
  incidents (ui (dispatch w e)) ≠ [] →
  NoDup (id <$> incidents (ui (dispatch w e))) →
  loadIncidentsFromDB (idb (dispatch w e))
  = (array_sort (λ a b : Incident, id a - id b) (incidents (ui (dispatch w e))),
     idb (dispatch w e))
  ∧ incidents (ui (mount (idb (dispatch w e)))) ≡ₚ incidents (ui (dispatch w e)).
Proof.
  intros Ha Hm Hne Hnd.
  destruct (dispatch_mutation_effect w e Hm) as [Hsave _].
  destruct (Hsave Hne) as [_ Hidb].
  assert (loadIncidentsFromDB (idb (dispatch w e))
          = (array_sort (λ a b : Incident, id a - id b)
               (incidents (ui (dispatch w e))), idb (dispatch w e))) as Hload.
  { rewrite Hidb.
    destruct (saveIncidentsToDB_distinct _ (idb w) Ha Hnd) as (s & Hs & ->).
    rewrite loadIncidentsFromDB_nonempty_store; simpl; [|done|].
    - by rewrite (getAll_store_add_all _ s Hs).
    - by eapply store_add_all_nonempty. }
  split; [done|].
  by rewrite mount_incidents, Hload, array_sort_Permutation.
Qed.

Lemma reload_returns_record_set_witness :
  loadIncidentsFromDB
    (idb (dispatch (dispatch freshWorld (ShowDeleteConfirm 1 "x")) ConfirmDelete))
  = (array_sort (λ a b : Incident, id a - id b)
       (incidents (ui (dispatch (dispatch freshWorld (ShowDeleteConfirm 1 "x"))
                         ConfirmDelete))),
     idb (dispatch (dispatch freshWorld (ShowDeleteConfirm 1 "x")) ConfirmDelete)).
Proof.
  refine (proj1 (reload_returns_record_set
                   (dispatch freshWorld (ShowDeleteConfirm 1 "x")) ConfirmDelete
                   _ _ _ _)).
  - reflexivity.
  - reflexivity.
  - vm_compute. discriminate.
  - apply (bool_decide_unpack _). reflexivity.
Defined.

Lemma NoDup_app_sublist {A : Type} (l1 l2 k : list A) :
  l1 `sublist_of` l2 → NoDup (l2 ++ k) → NoDup (l1 ++ k).
Proof.
  intros Hs Hnd. eapply sublist_NoDup; [exact Hnd|]. by apply sublist_app.
Qed.

(** X10: ids stay pairwise distinct as long as the clock does its part: if
    the ids of the record set together with the [Date.now()] readings of
    the submissions of a run are pairwise distinct, the ids of the record
    set are pairwise distinct after the run. *)
Theorem distinct_clock_readings_keep_ids_distinct (w : World) (es : list Event) :
  NoDup ((id <$> incidents (ui w)) ++ submitClocks es) →
  NoDup (id <$> incidents (ui (run w es))).
Proof.
  revert w. induction es as [|e es IH]; intros w Hnd.
  { simpl in *. by rewrite app_nil_r in Hnd. }
  apply IH.
  destruct (dispatch_incidents w e)
    as [Heq|[(now & nowISO & -> & _ & _ & Heq)|[-> Heq]]]; rewrite Heq.
  - destruct e; simpl in Hnd; try done.
    eapply sublist_NoDup; [exact Hnd|].
    apply sublist_app; [done|]. by apply sublist_cons.
  - simpl in *. by rewrite Permutation_middle.
  - simpl in Hnd. eapply NoDup_app_sublist; [|exact Hnd].
    apply fmap_sublist, sublist_filter.
Qed.

Lemma distinct_clock_readings_keep_ids_distinct_witness :
  NoDup (id <$> incidents
                  (ui (run freshWorld
                         [ChangeTitle "A"; ChangeDescription "a"; Submit 10 "x";
                          ChangeTitle "B"; ChangeDescription "b"; Submit 11 "y"]))).
Proof.
  apply (distinct_clock_readings_keep_ids_distinct freshWorld
           [ChangeTitle "A"; ChangeDescription "a"; Submit 10 "x";
            ChangeTitle "B"; ChangeDescription "b"; Submit 11 "y"]).
  apply (bool_decide_unpack _). reflexivity.
Defined.

Lemma filled_seed : Forall filled initialIncidents.
Proof. repeat constructor; discriminate. Qed.

(** X11: no record with an empty title or an empty description ever enters
    the record set: if the records the database holds at start have both
    fields filled, so has every record of the record set after the first
    render and after every sequence of events. *)
Theorem record_fields_stay_filled (db : IDB) (es : list Event) :
  (∀ k i, objectStore db !! k = Some i → filled i) →
  Forall filled (incidents (ui (run (mount db) es))).
Proof.
  intros Hdb.
  assert (Forall filled (incidents (ui (mount db)))) as Hm.
  { rewrite mount_incidents. unfold loadIncidentsFromDB.
    destruct (openDB db) as [s|] eqn:Ho; [|apply filled_seed]. simpl.
    case_decide; simpl; [|apply filled_seed].
    apply Forall_forall. intros i [k Hk]%getAll_elem_of.
    unfold openDB in Ho. destruct (idbAvailable db); [|done].
    injection Ho as <-. by eapply Hdb. }
  revert Hm. generalize (mount db). clear Hdb db.
  induction es as [|e es IH]; intros w Hw; [done|].
  apply IH.
  destruct (dispatch_incidents w e)
    as [Heq|[(now & nowISO & -> & Ht & Hd & Heq)|[-> Heq]]]; rewrite Heq.
  - done.
  - by constructor.
  - apply Forall_forall. intros i [_ Hi]%list_elem_of_filter.
    rewrite Forall_forall in Hw. by apply Hw.
Qed.

Lemma record_fields_stay_filled_witness :
  Forall filled
    (incidents (ui (run (mount (mkIDB true ∅))
                      [ChangeTitle "A"; Submit 10 "x";
                       ChangeDescription "a"; Submit 11 "y"]))).
Proof.
  apply (record_fields_stay_filled (mkIDB true ∅)
           [ChangeTitle "A"; Submit 10 "x"; ChangeDescription "a"; Submit 11 "y"]).
  intros k i. simpl. by rewrite lookup_empty.
Defined.

(** X12: a create followed by the confirmed delete of the new record
    restores the record set: when the form is filled and the clock reading
    is the id of no record, submitting, asking to delete the id just
    assigned and confirming leaves the record set as it was before. *)
Theorem create_then_delete_restores (w : World) (now : Z) (nowISO t : string) :
  newTitle (newIncident (ui w)) ≠ EmptyString →
  newDescription (newIncident (ui w)) ≠ EmptyString →
  now ∉ id <$> incidents (ui w) →
  incidents (ui (run w [Submit now nowISO; ShowDeleteConfirm now t; ConfirmDelete]))
  = incidents (ui w).
Proof.
  intros Ht Hd Hnow. simpl.
  set (w1 := dispatch w (Submit now nowISO)).
  assert (incidents (ui w1)
          = mkIncident now (newTitle (newIncident (ui w)))
              (newDescription (newIncident (ui w)))
              (newSeverity (newIncident (ui w))) nowISO :: incidents (ui w)) as H1.
  { subst w1. rewrite dispatch_with_mutation by done.
    rewrite persistEffect_ui. simpl. by rewrite handleSubmit_prepends. }
  unfold dispatch at 1. simpl. rewrite persistEffect_ui. simpl.
  rewrite H1, filter_cons. simpl.
  rewrite decide_False by (intros H; by apply H).
  by apply filter_other_ids.
Qed.

Lemma create_then_delete_restores_witness :
  incidents (ui (run (run freshWorld [ChangeTitle "A"; ChangeDescription "a"])
                   [Submit 10 "x"; ShowDeleteConfirm 10 "A"; ConfirmDelete]))
  = incidents (ui (run freshWorld [ChangeTitle "A"; ChangeDescription "a"])).
Proof.
  apply (create_then_delete_restores
           (run freshWorld [ChangeTitle "A"; ChangeDescription "a"]) 10 "x" "A").
  - discriminate.
  - discriminate.
  - apply (bool_decide_unpack _). reflexivity.
Defined.

(** ** The counter and the derived view *)

(** X13: the three severity counts of the floating counter add up to the
    total count. *)
Theorem severity_counts_add_up (l : list Incident) :
  (lowCount l + mediumCount l + highCount l = totalCount l)%nat.
Proof.
  unfold lowCount, mediumCount, highCount, totalCount.
  induction l as [|i l IH]; [done|].
  rewrite !filter_cons. destruct (severity i) eqn:Hs;
    repeat case_decide; try congruence; simpl; lia.
Qed.

(** The derived view holds exactly the records that pass both tests, as
    many times as the record set holds them. *)
Lemma deriveView_Permutation (getTime : string → option Z) (l : list Incident)
    (F : SeverityFilter) (o : SortOrder) (term : string) :
  deriveView getTime l F o term
  ≡ₚ filter (λ i, matchesSearch term i = true) (filter (matchesFilter F) l).
Proof. unfold deriveView, sortStage. by rewrite array_sort_Permutation. Qed.

(** X14: the derived view shows a record exactly when the record set holds
    it and it passes the severity filter and the search; it never shows
    more rows than there are records, and the sort order does not change
    which records are shown.  This needs no assumption on the timestamps. *)
Theorem derived_view_membership (getTime : string → option Z)
    (l : list Incident) (F : SeverityFilter) (o : SortOrder) (term : string) :
  (∀ i, i ∈ deriveView getTime l F o term
        ↔ i ∈ l ∧ matchesFilter F i ∧ matchesSearch term i = true)
  ∧ (length (deriveView getTime l F o term) ≤ length l)%nat
  ∧ deriveView getTime l F newest term ≡ₚ deriveView getTime l F oldest term.
Proof.
  split; [|split].
  - intros i. rewrite deriveView_Permutation, !list_elem_of_filter. tauto.
  - rewrite deriveView_Permutation.
    etrans; [apply length_filter|apply length_filter].
  - by rewrite !deriveView_Permutation.
Qed.

(** X15: with no search term, the number of rows shown under a severity
    filter is the count the floating counter displays for that severity,
    and under the filter All it is the total count. *)
Theorem counter_matches_filtered_view (getTime : string → option Z)
    (l : list Incident) (o : SortOrder) :
  length (deriveView getTime l (Only Low) o EmptyString) = lowCount l
  ∧ length (deriveView getTime l (Only Medium) o EmptyString) = mediumCount l
  ∧ length (deriveView getTime l (Only High) o EmptyString) = highCount l
  ∧ length (deriveView getTime l All o EmptyString) = totalCount l.
Proof.
  assert (∀ s, length (deriveView getTime l (Only s) o EmptyString)
               = length (filter (λ i, severity i = s) l)) as Hs.
  { intros s. unfold deriveView, sortStage.
    rewrite array_sort_length, searchStage_empty. unfold filterStage.
    f_equal. apply list_filter_iff. intros i. unfold matchesFilter. split.
    - intros [?|[= ->]]; done.
    - intros ->. by right. }
  split; [apply Hs|]. split; [apply Hs|]. split; [apply Hs|].
  unfold deriveView, sortStage, totalCount.
  rewrite array_sort_length, searchStage_empty. unfold filterStage. f_equal.
  clear Hs. induction l as [|i l IH]; [done|].
  rewrite filter_cons, decide_True by by left. by f_equal.
Qed.

(** ** How the stages of the pipeline compose *)

Lemma StronglySorted_filter {A : Type} (R : A → A → Prop) (P : A → Prop)
    `{!∀ x, Decision (P x)} (l : list A) :
  StronglySorted R l → StronglySorted R (filter P l).
Proof.
  induction 1 as [|a l Hs IH Ha]; [constructor|].
  rewrite filter_cons. case_decide; [|done].
  constructor; [done|]. apply Forall_forall. intros b [_ Hb]%list_elem_of_filter.
  rewrite Forall_forall in Ha. by apply Ha.
Qed.

Lemma StronglySorted_reverse_flip {A : Type} (R : A → A → Prop) (l : list A) :
  StronglySorted R l → StronglySorted (flip R) (reverse l).
Proof.
  induction 1 as [|a l Hs IH Ha]; [constructor|].
  rewrite reverse_cons. apply StronglySorted_app_2; [|done|repeat constructor].
  intros b c Hb [->|[]%elem_of_nil]%elem_of_cons. unfold flip.
  rewrite Forall_forall in Ha. apply Ha. by apply elem_of_reverse.
Qed.

Lemma filter_NoDup_fmap_short {A B : Type} `{EqDecision B} (f : A → B) (v : B)
    (l : list A) :
  NoDup (f <$> l) → (length (filter (λ a, f a = v) l) ≤ 1)%nat.
Proof.
  induction l as [|x l IH]; [simpl; lia|].
  rewrite fmap_cons. intros [Hx Hnd]%NoDup_cons. specialize (IH Hnd).
  rewrite filter_cons. case_decide as Hv; [|done]. simpl.
  destruct (filter (λ a, f a = v) l) as [|a k] eqn:Hf; [simpl; lia|].
  exfalso. assert (a ∈ filter (λ a, f a = v) l) as Ha by (rewrite Hf; left).
  apply list_elem_of_filter in Ha as [Hfa Ha]. apply Hx.
  rewrite Hv, <-Hfa. apply list_elem_of_fmap. eauto.
Qed.

Lemma filter_comm {A : Type} (P Q : A → Prop)
    `{!∀ x, Decision (P x)} `{!∀ x, Decision (Q x)} (l : list A) :
  filter P (filter Q l) = filter Q (filter P l).
Proof.
  rewrite !list_filter_filter. apply list_filter_iff. intros; tauto.
Qed.

Section ArraySortComposition.
Context {A : Type} (cmp : A → A → Z) (key : A → Z) (ok : A → Prop).
Hypothesis cmp_key : ∀ a b, ok a → ok b → (cmp a b ≤ 0 ↔ key a ≤ key b).

Lemma array_sort_filter (P : A → Prop) `{!∀ x, Decision (P x)} (l : list A) :
  Forall ok l → array_sort cmp (filter P l) = filter P (array_sort cmp l).
Proof.
  intros Hl.
  assert (Forall ok (filter P l)) as Hfl.
  { apply Forall_forall. intros a [_ Ha]%list_elem_of_filter.
    rewrite Forall_forall in Hl. by apply Hl. }
  apply (stable_sorted_unique key).
  - by apply (array_sort_sorted cmp key ok).
  - apply StronglySorted_filter. by apply (array_sort_sorted cmp key ok).
  - intros k. rewrite (array_sort_stable cmp key ok) by done.
    rewrite !(filter_comm (λ a, key a = k) P).
    by rewrite (array_sort_stable cmp key ok).
Qed.

Lemma array_sort_idempotent (l : list A) :
  Forall ok l → array_sort cmp (array_sort cmp l) = array_sort cmp l.
Proof.
  intros Hl.
  assert (Forall ok (array_sort cmp l)) as Hsl by by apply array_sort_Forall.
  apply (stable_sorted_unique key).
  - by apply (array_sort_sorted cmp key ok).
  - by apply (array_sort_sorted cmp key ok).
  - intros k. by rewrite (array_sort_stable cmp key ok).
Qed.
End ArraySortComposition.

Lemma sortStage_stable (getTime : string → option Z) (o : SortOrder)
    (t : Z) (l : list Incident) :
  Forall (hasTime getTime) l →
  filter (reportedAtTime getTime t) (sortStage getTime o l)
  = filter (reportedAtTime getTime t) l.
Proof.
  intros Hl.
  assert (Forall (hasTime getTime) (sortStage getTime o l)) as Hls
    by by apply array_sort_Forall.
  rewrite !(filter_reportedAtTime getTime o) by done.
  apply (array_sort_stable _ _ (hasTime getTime)); [|done].
  apply compareReportedAt_sortKey.
Qed.

Lemma sortStage_sorted (getTime : string → option Z) (o : SortOrder)
    (l : list Incident) :
  Forall (hasTime getTime) l →
  StronglySorted (inOrder getTime o) (sortStage getTime o l).
Proof.
  intros Hl.
  eapply (StronglySorted_on (hasTime getTime)).
  - intros a b Ha Hb. by apply sortKey_inOrder.
  - by apply array_sort_Forall.
  - apply (array_sort_sorted _ _ (hasTime getTime)); [|done].
    apply compareReportedAt_sortKey.
Qed.

(** X16: on records whose [reported_at] is a date, sorting commutes with
    filtering, so the derived view does not depend on the order of its
    stages: sorting the record set first and then applying the search and
    the severity filter gives the same list. *)
Theorem sort_commutes_with_filter (getTime : string → option Z) (o : SortOrder)
    (l : list Incident) (F : SeverityFilter) (term : string) :
  Forall (hasTime getTime) l →
  sortStage getTime o (filterStage F l) = filterStage F (sortStage getTime o l)
  ∧ sortStage getTime o (searchStage term l) = searchStage term (sortStage getTime o l)
  ∧ deriveView getTime l F o term
    = filterStage F (searchStage term (sortStage getTime o l)).
Proof.
  intros Hl.
  assert (∀ (P : Incident → Prop) `{!∀ x, Decision (P x)} k,
            Forall (hasTime getTime) k →
            sortStage getTime o (filter P k) = filter P (sortStage getTime o k))
    as Hcomm.
  { intros P ? k Hk.
    apply (array_sort_filter _ (sortKey getTime o) (hasTime getTime)); [|done].
    apply compareReportedAt_sortKey. }
  split; [by apply Hcomm|]. split; [by apply Hcomm|].
  unfold deriveView, searchStage, filterStage.
  rewrite Hcomm, Hcomm by (done || (apply Forall_forall;
    intros a [_ Ha]%list_elem_of_filter; rewrite Forall_forall in Hl; by apply Hl)).
  apply filter_comm.
Qed.

Lemma sort_commutes_with_filter_witness :
  sortStage isoTime newest (filterStage (Only High) initialIncidents)
  = filterStage (Only High) (sortStage isoTime newest initialIncidents)
  ∧ sortStage isoTime newest (searchStage "data" initialIncidents)
    = searchStage "data" (sortStage isoTime newest initialIncidents)
  ∧ deriveView isoTime initialIncidents (Only High) newest "data"
    = filterStage (Only High)
        (searchStage "data" (sortStage isoTime newest initialIncidents)).
Proof.
  apply (sort_commutes_with_filter isoTime newest initialIncidents (Only High) "data").
  apply (bool_decide_unpack _). reflexivity.
Defined.

(** X17: on records whose [reported_at] is a date, sorting a sorted list
    again changes nothing. *)
Theorem sort_stage_idempotent (getTime : string → option Z) (o : SortOrder)
    (l : list Incident) :
  Forall (hasTime getTime) l →
  sortStage getTime o (sortStage getTime o l) = sortStage getTime o l.
Proof.
  intros Hl.
  apply (array_sort_idempotent _ (sortKey getTime o) (hasTime getTime)); [|done].
  apply compareReportedAt_sortKey.
Qed.

Lemma sort_stage_idempotent_witness :
  sortStage isoTime oldest (sortStage isoTime oldest initialIncidents)
  = sortStage isoTime oldest initialIncidents.
Proof.
  apply (sort_stage_idempotent isoTime oldest initialIncidents).
  apply (bool_decide_unpack _). reflexivity.
Defined.

(** X18: when the records carry pairwise-distinct dates, the list for
    [newest] is the list for [oldest] read backwards. *)
Theorem newest_is_oldest_reversed (getTime : string → option Z) (l : list Incident) :
  Forall (hasTime getTime) l →
  NoDup ((λ i, getTime (reported_at i)) <$> l) →
  sortStage getTime newest l = reverse (sortStage getTime oldest l).
Proof.
  intros Hl Hnd. symmetry. apply sortStage_unique; [done| | |].
  - apply Forall_forall. intros i Hi. rewrite elem_of_reverse in Hi.
    unfold sortStage in Hi. rewrite array_sort_Permutation in Hi.
    rewrite Forall_forall in Hl. by apply Hl.
  - eapply (StronglySorted_on (λ _, True));
      [|by apply Forall_true
       |apply StronglySorted_reverse_flip, (sortStage_sorted getTime oldest l Hl)].
    intros a b _ _. unfold flip, inOrder.
    by destruct (getTime (reported_at a)), (getTime (reported_at b)).
  - intros t. rewrite filter_reverse, sortStage_stable by done.
    pose proof (filter_NoDup_fmap_short (λ i, getTime (reported_at i)) (Some t) l Hnd)
      as Hlen.
    unfold reportedAtTime.
    destruct (filter (λ i, getTime (reported_at i) = Some t) l) as [|a [|b k]];
      [done|done|simpl in Hlen; lia].
Qed.

Lemma newest_is_oldest_reversed_witness :
  sortStage isoTime newest initialIncidents
  = reverse (sortStage isoTime oldest initialIncidents).
Proof.
  apply (newest_is_oldest_reversed isoTime initialIncidents).
  - apply (bool_decide_unpack _). reflexivity.
  - apply (bool_decide_unpack _). reflexivity.
Defined.

(** ** Narrowing the search *)

Lemma append_assoc_string (a b c : string) : (a +:+ b) +:+ c = a +:+ b +:+ c.
Proof.
  induction a as [|x a IH]; [done|]. by rewrite !append_String, IH.
Qed.

Lemma includes_trans (s t u : string) :
  includes s t = true → includes t u = true → includes s u = true.
Proof.
  rewrite !includes_spec. intros (p1 & q1 & ->) (p2 & q2 & ->).
  exists (p1 +:+ p2), (q2 +:+ q1). by rewrite !append_assoc_string.
Qed.

Lemma filter_sublist_mono {A : Type} (P Q : A → Prop)
    `{!∀ x, Decision (P x)} `{!∀ x, Decision (Q x)} (l : list A) :
  (∀ x, P x → Q x) → filter P l `sublist_of` filter Q l.
Proof.
  intros HPQ. induction l as [|x l IH]; [done|].
  rewrite !filter_cons. destruct (decide (P x)) as [HP|HP].
  - rewrite decide_True by auto. by apply sublist_skip.
  - case_decide; [by apply sublist_cons|done].
Qed.

Lemma searchStage_narrows (t u : string) (R : list Incident) :
  includes (toLowerCase u) (toLowerCase t) = true →
  searchStage u R `sublist_of` searchStage t R.
Proof.
  intros Htu. unfold searchStage. apply filter_sublist_mono. intros i.
  unfold matchesSearch. rewrite !orb_true_iff.
  intros [H|H]; [left|right]; by eapply includes_trans.
Qed.

(** X19: for ASCII search terms, typing more never widens the search: a
    term that contains the old term, up to the case of letters, keeps a
    subsequence of the records the old term keeps, whatever the records
    hold; in particular this is so when characters are added at the end or
    at the front of the term. *)
Theorem longer_search_term_narrows (t u : string) (R : list Incident) :
  isAscii t = true → isAscii u = true →
  (containsIgnoringCase u t → searchStage u R `sublist_of` searchStage t R)
  ∧ searchStage (t +:+ u) R `sublist_of` searchStage t R
  ∧ searchStage (u +:+ t) R `sublist_of` searchStage t R.
Proof.
  intros Ht Hu.
  assert (∀ v, isAscii v = true → containsIgnoringCase v t →
               searchStage v R `sublist_of` searchStage t R) as Hnarrow.
  { intros v Hv Hc. apply searchStage_narrows.
    rewrite !toLowerCase_ascii by done. by apply includes_lowerAscii. }
  split; [by apply Hnarrow|]. split.
  - apply Hnarrow; [by rewrite isAscii_app, Ht, Hu|].
    exists EmptyString, t, u. split; [by rewrite append_empty_l|].
    by apply lowerAscii_eq_iff.
  - apply Hnarrow; [by rewrite isAscii_app, Ht, Hu|].
    exists u, t, EmptyString. split; [|by apply lowerAscii_eq_iff]. f_equal.
    clear. induction t as [|c t IH]; [done|]. by rewrite append_String, <-IH.
Qed.

(** X28: on ASCII text the search is the case-insensitive substring
    test: for an ASCII term and records whose title and description are
    ASCII, the search stage keeps a record exactly when the term is empty
    or the title or the description contains the term as a substring up to
    the case of letters; the empty term keeps every record, and a record
    titled LLM Hallucination is kept for the terms llm and HALLUC. *)
Theorem ascii_search_stage_correct (term : string) (R : list Incident) :
  isAscii term = true → Forall asciiText R →
  (∀ i, i ∈ searchStage term R
        ↔ i ∈ R ∧ (term = EmptyString
                   ∨ containsIgnoringCase (title i) term
                   ∨ containsIgnoringCase (description i) term))
  ∧ searchStage EmptyString R = R
  ∧ (∀ i, i ∈ R → title i = "LLM Hallucination" →
          i ∈ searchStage "llm" R ∧ i ∈ searchStage "HALLUC" R).
Proof.
  intros Ht HR. rewrite Forall_forall in HR.
  assert (∀ t i, isAscii t = true →
            (i ∈ searchStage t R
             ↔ i ∈ R ∧ (containsIgnoringCase (title i) t
                        ∨ containsIgnoringCase (description i) t))) as Hmem.
  { intros t i Hta. unfold searchStage. rewrite list_elem_of_filter. split.
    - intros [Hm Hi]. split; [done|]. by apply matchesSearch_ascii; auto.
    - intros [Hi Hc]. split; [|done]. by apply matchesSearch_ascii; auto. }
  split; [|split; [apply searchStage_empty|]].
  - intros i. rewrite Hmem by done. split; [tauto|]. intros [Hi [->|H]]; [|tauto].
    split; [done|]. left. by exists EmptyString, EmptyString, (title i).
  - intros i Hi Hti.
    split; apply Hmem; try done; (split; [done|]); left; rewrite Hti.
    + exists EmptyString, "LLM", " Hallucination". split; [done|].
      by apply lowerAscii_eq_iff.
    + exists "LLM ", "Halluc", "ination". split; [done|].
      by apply lowerAscii_eq_iff.
Qed.

Lemma ascii_search_stage_correct_witness :
  mkIncident 9 "LLM Hallucination" "d" High "2025-04-01T14:30:00Z"
    ∈ searchStage "llm"
        (mkIncident 9 "LLM Hallucination" "d" High "2025-04-01T14:30:00Z"
           :: initialIncidents)
  ∧ mkIncident 9 "LLM Hallucination" "d" High "2025-04-01T14:30:00Z"
      ∈ searchStage "HALLUC"
          (mkIncident 9 "LLM Hallucination" "d" High "2025-04-01T14:30:00Z"
             :: initialIncidents).
Proof.
  refine (proj2 (proj2 (ascii_search_stage_correct "llm"
            (mkIncident 9 "LLM Hallucination" "d" High "2025-04-01T14:30:00Z"
               :: initialIncidents) _ _)) _ _ _).
  - reflexivity.
  - repeat constructor.
  - left.
  - reflexivity.
Defined.

(** ** Unfolding the details of a record *)

(** X20: [toggleDetails] flips the membership of the id it is given and of
    no other id, and keeps a list without repetitions free of them. *)
Theorem toggleDetails_flips_one_id (x : Z) (prev : list Z) :
  (x ∈ toggleDetails x prev ↔ x ∉ prev)
  ∧ (∀ y, y ≠ x → (y ∈ toggleDetails x prev ↔ y ∈ prev))
  ∧ (NoDup prev → NoDup (toggleDetails x prev)).
Proof.
  unfold toggleDetails. destruct (decide (x ∈ prev)) as [Hx|Hx].
  - split; [|split].
    + rewrite list_elem_of_filter. tauto.
    + intros y Hy. rewrite list_elem_of_filter. tauto.
    + apply NoDup_filter.
  - split; [|split].
    + rewrite elem_of_app, list_elem_of_singleton. tauto.
    + intros y Hy. rewrite elem_of_app, list_elem_of_singleton. tauto.
    + intros Hnd. apply NoDup_app. split; [done|]. split; [|apply NoDup_singleton].
      intros y Hy ->%list_elem_of_singleton. done.
Qed.

(** X21: toggling the same id twice restores the list when the id was not
    in it; when the id was in a list without repetitions, the list comes
    back with that id moved to the end. *)
Theorem toggleDetails_twice (x : Z) (prev : list Z) :
  (x ∉ prev → toggleDetails x (toggleDetails x prev) = prev)
  ∧ (x ∈ prev →
       toggleDetails x (toggleDetails x prev) = filter (λ i, i ≠ x) prev ++ [x]).
Proof.
  split; intros Hx.
  - unfold toggleDetails at 2. rewrite decide_False by done.
    unfold toggleDetails. rewrite decide_True by (apply elem_of_app; right; left).
    rewrite filter_app, filter_cons, decide_False by (intros H; by apply H).
    rewrite filter_nil, app_nil_r. clear -Hx.
    induction prev as [|y prev IH]; [done|].
    apply not_elem_of_cons in Hx as [Hy Hx].
    rewrite filter_cons, decide_True by done. by rewrite IH.
  - unfold toggleDetails at 2. rewrite decide_True by done.
    unfold toggleDetails. rewrite decide_False; [done|].
    rewrite list_elem_of_filter. tauto.
Qed.

Lemma toggleDetails_twice_witness :
  toggleDetails 2 (toggleDetails 2 [1; 3]) = [1; 3]
  ∧ toggleDetails 2 (toggleDetails 2 [1; 2; 3]) = filter (λ i, i ≠ 2) [1; 2; 3] ++ [2].
Proof.
  split.
  - apply (proj1 (toggleDetails_twice 2 [1; 3])).
    apply (bool_decide_unpack _). reflexivity.
  - apply (proj2 (toggleDetails_twice 2 [1; 2; 3])).
    apply (bool_decide_unpack _). reflexivity.
Defined.

Lemma longer_search_term_narrows_witness :
  searchStage "LLM H" initialIncidents `sublist_of` searchStage "llm" initialIncidents.
Proof.
  refine (proj1 (longer_search_term_narrows "llm" "LLM H" initialIncidents _ _) _).
  - reflexivity.
  - reflexivity.
  - exists EmptyString, "LLM", " H". split; [reflexivity|].
    apply lowerAscii_eq_iff. reflexivity.
Defined.

Lemma toggleDetails_flips_one_id_witness : NoDup (toggleDetails 2 [1; 2; 3]).
Proof.
  apply (proj2 (proj2 (toggleDetails_flips_one_id 2 [1; 2; 3]))).
  apply (bool_decide_unpack _). reflexivity.
Defined.

(** ** The theme *)

(** X22: the theme survives a reload: once the theme effect has run for a
    value of [darkMode], the initialiser of a later page load returns that
    value, whatever the system preference is then; the document element
    carries the class dark exactly in dark mode; and no other entry of
    [localStorage] is touched. *)
Theorem theme_survives_reload (darkMode : bool) (b : Browser) :
  hasWindow b = true →
  (∀ p c, initialDarkMode
            (mkBrowser true (localStorage (themeEffect darkMode b)) p c) = darkMode)
  ∧ ("dark" ∈ classList (themeEffect darkMode b) ↔ darkMode = true)
  ∧ (∀ k, k ≠ "theme" →
          localStorage (themeEffect darkMode b) !! k = localStorage b !! k).
Proof.
  intros Hw. split; [|split].
  - intros p c. unfold initialDarkMode, themeEffect.
    destruct darkMode; simpl; rewrite lookup_insert_eq; simpl; [done|].
    by destruct p.
  - unfold themeEffect. destruct darkMode; simpl.
    + split; [done|]. intros _. apply elem_of_union. right.
      by apply elem_of_singleton.
    + split; [|done]. intros [_ H]%elem_of_difference. exfalso. apply H.
      by apply elem_of_singleton.
  - intros k Hk. unfold themeEffect.
    destruct darkMode; simpl; by rewrite lookup_insert_ne.
Qed.

Lemma theme_survives_reload_witness :
  "dark" ∈ classList (themeEffect true (mkBrowser true ∅ false ∅)) ↔ true = true.
Proof.
  apply (theme_survives_reload true (mkBrowser true ∅ false ∅)).
  reflexivity.
Defined.

(** X23: without a usable saved preference the system decides: in a
    browser whose [localStorage] has no theme entry, or an empty one, the
    initial theme is the system preference; a saved value other than dark
    gives the light theme; and without a [window] the theme is light. *)
Theorem theme_without_saved_preference (b : Browser) :
  (hasWindow b = false → initialDarkMode b = false)
  ∧ (hasWindow b = true →
     truthy (localStorage b !! "theme") = false →
     initialDarkMode b = prefersDark b)
  ∧ (hasWindow b = true →
     truthy (localStorage b !! "theme") = true →
     localStorage b !! "theme" ≠ Some "dark" →
     initialDarkMode b = false).
Proof.
  unfold initialDarkMode. split; [|split].
  - by intros ->.
  - intros -> Ht. cbv zeta. rewrite Ht. simpl.
    rewrite bool_decide_eq_false_2; [done|].
    intros Hd. by rewrite Hd in Ht.
  - intros -> Ht Hd. cbv zeta. rewrite Ht. simpl.
    by rewrite bool_decide_eq_false_2, orb_false_r.
Qed.

Lemma theme_without_saved_preference_witness :
  initialDarkMode (mkBrowser true ∅ true ∅) = true.
Proof.
  apply (proj1 (proj2 (theme_without_saved_preference (mkBrowser true ∅ true ∅))));
    reflexivity.
Defined.

(** ** The floating counter *)

Lemma toggleCountDisplay_iter (n : nat) (c : Counter) :
  Nat.iter (S n) toggleCountDisplay c
  = mkCounter (isCountExpanded c) true
      (pendingTimers c ++ replicate (S n) (negb (isCountExpanded c))).
Proof.
  induction n as [|n IH]; [done|].
  change (Nat.iter (S (S n)) toggleCountDisplay c)
    with (toggleCountDisplay (Nat.iter (S n) toggleCountDisplay c)).
  rewrite IH. unfold toggleCountDisplay. cbn [isCountExpanded pendingTimers].
  f_equal. rewrite <-app_assoc. f_equal. by rewrite <-replicate_S_end.
Qed.

Lemma fireTimer_iter (n m : nat) (e r v : bool) :
  Nat.iter (S n) fireTimer (mkCounter e r (replicate (S n + m) v))
  = mkCounter v false (replicate m v).
Proof.
  revert m. induction n as [|n IH]; intros m; [done|].
  change (Nat.iter (S (S n)) fireTimer ?x)
    with (fireTimer (Nat.iter (S n) fireTimer x)).
  replace (S (S n) + m)%nat with (S n + S m)%nat by lia.
  by rewrite IH.
Qed.

(** X24: presses on the counter that arrive before the first pending
    callback runs count as one: from a counter with no pending callback,
    any positive number of presses followed by as many callbacks ends with
    [isCountExpanded] negated once, not rotating and nothing pending; a
    press whose callback has run before the next press toggles each time. *)
Theorem counter_presses_before_timer_count_once (n : nat) (c : Counter) :
  pendingTimers c = [] →
  Nat.iter (S n) fireTimer (Nat.iter (S n) toggleCountDisplay c)
  = mkCounter (negb (isCountExpanded c)) false []
  ∧ fireTimer (toggleCountDisplay (fireTimer (toggleCountDisplay c)))
    = mkCounter (isCountExpanded c) false [].
Proof.
  intros Hp. split.
  - rewrite toggleCountDisplay_iter, Hp, app_nil_l.
    replace (S n) with (S n + 0)%nat at 2 by lia. by rewrite fireTimer_iter.
  - unfold toggleCountDisplay, fireTimer. rewrite Hp. simpl.
    by rewrite negb_involutive.
Qed.

Lemma counter_presses_before_timer_count_once_witness :
  Nat.iter 3 fireTimer (Nat.iter 3 toggleCountDisplay (mkCounter false false []))
  = mkCounter true false []
  ∧ fireTimer (toggleCountDisplay (fireTimer
                 (toggleCountDisplay (mkCounter false false []))))
    = mkCounter false false [].
Proof.
  apply (counter_presses_before_timer_count_once 2 (mkCounter false false [])).
  reflexivity.
Defined.

(** ** What the events leave alone *)

(** X25: only a successful create and a confirmed delete write: every
    other event (a change of the filter, the sort order, the search term or
    a form field, a delete request, a cancel, a rejected submission, a
    press on Delete while the popup is closed) leaves the record set, the
    database and the list of [saveIncidentsToDB] calls as they were. *)
Theorem only_mutations_write (w : World) (e : Event) :
  ¬ mutates e (ui w) →
  incidents (ui (dispatch w e)) = incidents (ui w)
  ∧ idb (dispatch w e) = idb w
  ∧ saveCalls (dispatch w e) = saveCalls w.
Proof. apply dispatch_without_mutation. Qed.

Lemma only_mutations_write_witness :
  incidents (ui (dispatch freshWorld (SetFilter (Only High))))
  = incidents (ui freshWorld)
  ∧ idb (dispatch freshWorld (SetFilter (Only High))) = idb freshWorld
  ∧ saveCalls (dispatch freshWorld (SetFilter (Only High))) = saveCalls freshWorld.
Proof.
  apply (only_mutations_write freshWorld (SetFilter (Only High))).
  intros H. exact H.
Defined.

(** X26: submitting twice creates one record: a successful submission
    empties the form, so a second submission right after it is rejected;
    the record set gains exactly the first record and the notifications are
    the success followed by the error. *)
Theorem double_submit_creates_one_record (w : World) (n1 n2 : Z) (i1 i2 : string) :
  newTitle (newIncident (ui w)) ≠ EmptyString →
  newDescription (newIncident (ui w)) ≠ EmptyString →
  incidents (ui (run w [Submit n1 i1; Submit n2 i2]))
  = mkIncident n1 (newTitle (newIncident (ui w)))
      (newDescription (newIncident (ui w)))
      (newSeverity (newIncident (ui w))) i1 :: incidents (ui w)
  ∧ toasts (run w [Submit n1 i1; Submit n2 i2])
    = toasts w
      ++ [toast_success ("New incident " +:+ quoted (newTitle (newIncident (ui w)))
                           +:+ " added successfully!");
          toast_error "Please fill all fields"]
  ∧ saveCalls (run w [Submit n1 i1; Submit n2 i2])
    = saveCalls (dispatch w (Submit n1 i1)).
Proof.
  intros Ht Hd. simpl.
  assert (dispatch w (Submit n1 i1)
          = persistEffect
              (mkWorld (nextState (handleSubmit n1 i1 (ui w))) (idb w)
                 (toasts w ++ shown (handleSubmit n1 i1 (ui w))) (saveCalls w)))
    as H1 by by apply (dispatch_with_mutation w (Submit n1 i1)).
  assert (handleSubmit n1 i1 (ui w)
          = mkOutcome
              (setNewIncident emptyForm
                 (setIncidents
                    (λ prev, mkIncident n1 (newTitle (newIncident (ui w)))
                               (newDescription (newIncident (ui w)))
                               (newSeverity (newIncident (ui w))) i1 :: prev)
                    (ui w)))
              true
              [toast_success ("New incident "
                                +:+ quoted (newTitle (newIncident (ui w)))
                                +:+ " added successfully!")]) as Hh.
  { unfold handleSubmit. case_decide as Hv; [by destruct Hv|done]. }
  rewrite Hh in H1. simpl in H1.
  set (w1 := dispatch w (Submit n1 i1)) in *.
  assert (newTitle (newIncident (ui w1)) = EmptyString) as He.
  { by rewrite H1, persistEffect_ui. }
  assert (dispatch w1 (Submit n2 i2)
          = mkWorld (ui w1) (idb w1) (toasts w1 ++ [toast_error "Please fill all fields"])
              (saveCalls w1)) as H2.
  { unfold dispatch. simpl. unfold handleSubmit. rewrite decide_True by by left. done. }
  rewrite H2. simpl. split; [by rewrite H1, persistEffect_ui|]. split; [|done].
  rewrite H1. unfold persistEffect. case_decide; simpl; by rewrite <-app_assoc.
Qed.

Lemma double_submit_creates_one_record_witness :
  length (incidents (ui (run (run freshWorld [ChangeTitle "A"; ChangeDescription "a"])
                           [Submit 10 "x"; Submit 10 "x"]))) = 4%nat.
Proof.
  rewrite (proj1 (double_submit_creates_one_record
                    (run freshWorld [ChangeTitle "A"; ChangeDescription "a"])
                    10 10 "x" "x" ltac:(discriminate) ltac:(discriminate))).
  reflexivity.
Defined.

(** X27: pressing Delete in the popup twice deletes once: the confirmed
    delete closes the popup, so a second press changes nothing at all, not
    even the notifications. *)
Theorem double_confirm_deletes_once (w : World) :
  run w [ConfirmDelete; ConfirmDelete] = dispatch w ConfirmDelete.
Proof.
  simpl.
  assert (isOpen (deletePopup (ui (dispatch w ConfirmDelete))) = false) as Hc.
  { unfold dispatch. simpl. destruct (isOpen (deletePopup (ui w))) eqn:Ho; simpl.
    - by rewrite persistEffect_ui.
    - done. }
  set (w1 := dispatch w ConfirmDelete) in *.
  unfold dispatch. simpl. rewrite Hc. simpl. rewrite app_nil_r. by destruct w1.
Qed.
